(** * Fuzzy Search (src/Fuzzy Search/main.py): n-gram matching, ranking,
      deduplication and highlighting, as a shallow embedding.

    Python [str] values are lists of characters; a character is a Rocq
    [ascii], read as a Latin-1 code point (0..255), so Python's Unicode
    predicates ([isspace], [isalnum], [isdigit], the regex classes [\w],
    [\d], [\s]) are written out on that range.  Similarity scores and
    thresholds (Python floats) are rationals [Q]. *)

From Stdlib Require Import List Ascii String Bool Arith Lia ZArith QArith.
From Stdlib Require Import Sorting.Sorted Sorting.Permutation Lqa.
Import ListNotations.

Open Scope list_scope.

Definition str := list ascii.

(** String literals written as Rocq strings, then read as Python [str]. *)
Definition s_ (s : string) : str := list_ascii_of_string s.

Definition code (c : ascii) : nat := nat_of_ascii c.

Definition in_range (lo hi : nat) (c : ascii) : bool :=
  (lo <=? code c) && (code c <=? hi).

(** ** Python character predicates (Latin-1 range) *)

(** [str.isspace] / regex [\s]: \t \n \v \f \r, \x1c-\x1f, space, \x85, \xa0. *)
Definition py_isspace (c : ascii) : bool :=
  in_range 9 13 c || in_range 28 32 c || (code c =? 133) || (code c =? 160).

(** [str.isalpha]: ASCII letters and the Latin-1 letters. *)
Definition py_isalpha (c : ascii) : bool :=
  in_range 65 90 c || in_range 97 122 c || (code c =? 170) || (code c =? 181)
  || (code c =? 186) || in_range 192 214 c || in_range 216 246 c
  || in_range 248 255 c.

(** [str.isdecimal] / regex [\d]. *)
Definition py_isdecimal (c : ascii) : bool := in_range 48 57 c.

(** [str.isdigit]: decimals and the superscripts two, three, one. *)
Definition py_isdigit_c (c : ascii) : bool :=
  py_isdecimal c || (code c =? 178) || (code c =? 179) || (code c =? 185).

(** [str.isnumeric]: digits and the vulgar fractions. *)
Definition py_isnumeric (c : ascii) : bool :=
  py_isdigit_c c || in_range 188 190 c.

Definition py_isalnum_c (c : ascii) : bool := py_isalpha c || py_isnumeric c.

(** Regex [\w] on [str] patterns: alphanumerics and the underscore. *)
Definition re_word (c : ascii) : bool := py_isalnum_c c || (code c =? 95).

(** Regex [[a-zA-Z0-9]]. *)
Definition ascii_alnum (c : ascii) : bool :=
  in_range 48 57 c || in_range 65 90 c || in_range 97 122 c.

(** [s.isalnum()], [s.isdigit()], [s.isspace()]: false on the empty string. *)
Definition py_isalnum (s : str) : bool :=
  match s with [] => false | _ => forallb py_isalnum_c s end.
Definition py_isdigit (s : str) : bool :=
  match s with [] => false | _ => forallb py_isdigit_c s end.
Definition py_isspace_s (s : str) : bool :=
  match s with [] => false | _ => forallb py_isspace s end.

(** ** [str.strip()] and [str.split()] *)

Fixpoint lstrip (s : str) : str :=
  match s with
  | [] => []
  | c :: s' => if py_isspace c then lstrip s' else s
  end.

Definition rstrip (s : str) : str := rev (lstrip (rev s)).

Definition py_strip (s : str) : str := rstrip (lstrip s).

(** [s.split()] with no separator: maximal runs of non-whitespace. *)
Fixpoint split_go (cur : str) (s : str) : list str :=
  match s with
  | [] => match cur with [] => [] | _ => [rev cur] end
  | c :: s' =>
      if py_isspace c
      then match cur with
           | [] => split_go [] s'
           | _ => rev cur :: split_go [] s'
           end
      else split_go (c :: cur) s'
  end.

Definition py_split (s : str) : list str := split_go [] s.

Definition space : ascii := " "%char.
Definition newline : ascii := ascii_of_nat 10.

(** [s.replace('\n', ' ')]. *)
Definition replace_nl (s : str) : str :=
  map (fun c => if Ascii.eqb c newline then space else c) s.

(** [' '.join(xs)]. *)
Fixpoint join_space (xs : list str) : str :=
  match xs with
  | [] => []
  | [x] => x
  | x :: xs' => x ++ space :: join_space xs'
  end.

Definition str_eqb (a b : str) : bool :=
  if list_eq_dec ascii_dec a b then true else false.

(** ** [get_ngrams] (lines 61-83) *)

(** Inner loop: [while j < ngrams_value: temp_str = temp_str + ' ' + list_str[i+j]]. *)
Fixpoint ngram_inner (list_str : list str) (ngrams_value i j : nat)
         (temp_str : str) (fuel : nat) : str :=
  match fuel with
  | O => temp_str
  | S fuel' =>
      if j <? ngrams_value
      then ngram_inner list_str ngrams_value i (S j)
             (temp_str ++ space :: nth (i + j) list_str []) fuel'
      else temp_str
  end.

(** Outer loop: [while i <= len(list_str) - ngrams_value] (Python ints). *)
Fixpoint ngram_outer (list_str : list str) (ngrams_value i : nat)
         (fuel : nat) : list str :=
  match fuel with
  | O => []
  | S fuel' =>
      if (Z.of_nat i <=? Z.of_nat (List.length list_str) - Z.of_nat ngrams_value)%Z
      then py_strip (ngram_inner list_str ngrams_value i 0 [] ngrams_value)
           :: ngram_outer list_str ngrams_value (S i) fuel'
      else []
  end.

Definition get_ngrams (list_str : list str) (ngrams_value : nat) : list str :=
  ngram_outer list_str ngrams_value 0 (S (List.length list_str)).

Example get_ngrams_ex :
  get_ngrams [s_ "Apple"; s_ "Inc"; s_ "reported"] 2
  = [s_ "Apple Inc"; s_ "Inc reported"].
Proof. reflexivity. Qed.

(** ** Match rows and the option monad for raised exceptions *)

Record Match := mkMatch {
  matched_word : str;
  restricted_word : str;
  similarity : Q
}.

(** [None] stands for a raised Python exception. *)
Notation "'let*' x ':=' c 'in' k" :=
  (match c with Some x => k | None => None end)
  (at level 200, x name, c at level 100, k at level 200).

Definition q_ltb (x y : Q) : bool := negb (Qle_bool y x).

(** ** [Levenshtein.ratio] (library code)

    [ratio(s1, s2)] is the normalised InDel similarity
    [2 * LCS(s1, s2) / (len s1 + len s2)], [1.0] on two empty strings.
    With [score_cutoff] it returns the score when it is [>= score_cutoff]
    and [0] otherwise; a cutoff outside [[0, 1]] raises [ValueError]. *)

(** One row of the LCS table, from the previous row [old]. *)
Fixpoint lcs_step (x : ascii) (b : str) (old : list nat) (left : nat) : list nat :=
  match b, old with
  | y :: b', oj :: ((oj1 :: _) as old') =>
      let v := if ascii_dec x y then S oj else Nat.max oj1 left in
      v :: lcs_step x b' old' v
  | _, _ => []
  end.

Definition lcs (a b : str) : nat :=
  last (fold_left (fun row x => 0%nat :: lcs_step x b row 0%nat) a
          (repeat 0%nat (S (List.length b)))) 0%nat.

Definition ratio_raw (a b : str) : Q :=
  let lensum := (List.length a + List.length b)%nat in
  if lensum =? 0 then 1%Q
  else (Z.of_nat (2 * lcs a b) # Pos.of_nat lensum)%Q.

Definition ratio (a b : str) (score_cutoff : Q) : option Q :=
  if q_ltb score_cutoff 0 || q_ltb 1 score_cutoff then None
  else let r := ratio_raw a b in
       if Qle_bool score_cutoff r then Some r else Some 0%Q.

(** ** [get_matches] (lines 86-126) *)

(** [strip_pattern = [^\w\d\s\.]]. *)
Definition strip_pattern (c : ascii) : bool :=
  negb (re_word c || py_isdecimal c || py_isspace c || (code c =? 46)).

(** [if re.match(strip_pattern, input[-1]): input = input[:-1]]. *)
Definition trim_last (input : str) : str :=
  match rev input with
  | c :: _ => if strip_pattern c then removelast input else input
  | [] => input
  end.

(** [re.sub(r'[^a-zA-Z0-9]', '', input)]. *)
Definition ticker_reduce (input : str) : str := filter ascii_alnum input.

(** The scored candidate: reduced for [restricted_type == 'ticker']. *)
Definition scored_text (restricted_type : str) (input : str) : str :=
  if str_eqb restricted_type (s_ "ticker") then ticker_reduce input else input.

(** Inner loop [for res in restricted_list]. *)
Fixpoint match_phrases (input : str) (restricted_list : list str)
         (similarity_t : Q) (restricted_type : str) : option (list Match) :=
  match restricted_list with
  | [] => Some []
  | res :: rl =>
      let* r := ratio (scored_text restricted_type input) res similarity_t in
      let* rest := match_phrases input rl similarity_t restricted_type in
      Some (if q_ltb similarity_t r
            then mkMatch (py_strip input) res r :: rest else rest)
  end.

(** Outer loop [for input in content_list]. *)
Fixpoint get_matches (content_list : list str) (restricted_list : list str)
         (similarity_t : Q) (restricted_type : str) : option (list Match) :=
  match content_list with
  | [] => Some []
  | input :: cl =>
      if (List.length input =? 0) || py_isspace_s input
      then get_matches cl restricted_list similarity_t restricted_type
      else
        let* ms := match_phrases (trim_last input) restricted_list
                     similarity_t restricted_type in
        let* rest := get_matches cl restricted_list similarity_t restricted_type in
        Some (ms ++ rest)
  end.

(** ** Stable descending insertion sort

    Python's [list.sort(key=..., reverse=True)] is stable and descending.
    [DataFrame.sort_values(ascending=False)] is descending; the order it
    gives to equal scores is taken as the insertion order (the spec's
    "stable by insertion"). [gt y x] means [key y > key x]. *)

Fixpoint insert_by {A} (gt : A -> A -> bool) (x : A) (l : list A) : list A :=
  match l with
  | [] => [x]
  | y :: l' => if gt y x then y :: insert_by gt x l' else x :: l
  end.

Fixpoint sort_by {A} (gt : A -> A -> bool) (l : list A) : list A :=
  match l with
  | [] => []
  | x :: l' => insert_by gt x (sort_by gt l')
  end.

(** ** [drop_duplicates(subset=[col], keep='first')] *)

Fixpoint drop_dup_go {A} (key : A -> str) (seen : list str) (l : list A) : list A :=
  match l with
  | [] => []
  | x :: l' =>
      if existsb (str_eqb (key x)) seen then drop_dup_go key seen l'
      else x :: drop_dup_go key (key x :: seen) l'
  end.

Definition drop_dup {A} (key : A -> str) (l : list A) : list A :=
  drop_dup_go key [] l.

(** ** Rank & Dedup (lines 192-197) *)

Definition sim_gt (y x : Match) : bool := q_ltb (similarity x) (similarity y).

(** [b] comes after [a] in a table sorted by descending similarity. *)
Definition sim_ge (a b : Match) : Prop := (similarity b <= similarity a)%Q.

(** The two dedup passes, applied to the table once sorted. *)
Definition dedup_passes (s : list Match) : list Match :=
  drop_dup restricted_word (drop_dup matched_word s).

Definition rank_dedup (l : list Match) : list Match :=
  dedup_passes (sort_by sim_gt l).

(** ** [fuzzy_search] (lines 148-205)

    The caller's list is sorted in place ([restricted_words.sort(...)]):
    the second component is the caller's list after the call.
    [restricted_words[0]] on an empty list raises [IndexError]. *)

Definition word_count (s : str) : nat := List.length (py_split s).

Definition wc_gt (y x : str) : bool := word_count x <? word_count y.

(** [while max_word_len > 0: ...; max_word_len -= 1]. *)
Fixpoint collect (content_list : list str) (restricted_words : list str)
         (similarity_t : Q) (restricted_type : str) (max_word_len : nat)
         : option (list Match) :=
  match max_word_len with
  | O => Some []
  | S n =>
      let temp := filter (fun e => word_count e =? max_word_len) restricted_words in
      let* current := (match temp with
                       | [] => Some []
                       | _ => get_matches (get_ngrams content_list max_word_len)
                                temp similarity_t restricted_type
                       end) in
      let* rest := collect content_list restricted_words similarity_t
                     restricted_type n in
      Some (current ++ rest)
  end.

Definition fuzzy_search (input_string : str) (restricted_words : list str)
           (similarity_t : Q) (restricted_type : str)
           : option (list Match) * list str :=
  let content_list := py_split (replace_nl input_string) in
  let restricted_words' := sort_by wc_gt restricted_words in
  match restricted_words' with
  | [] => (None, restricted_words')
  | w0 :: _ =>
      let max_word_len := word_count w0 in
      (match collect content_list restricted_words' similarity_t
               restricted_type max_word_len with
       | Some ms => Some (rank_dedup ms)
       | None => None
       end, restricted_words')
  end.

Example fuzzy_search_apple :
  fst (fuzzy_search (s_ "Apple Inc reported earnings") [s_ "Apple Inc"]
         (85 # 100) (s_ "issuer"))
  = Some [mkMatch (s_ "Apple Inc") (s_ "Apple Inc") (18 # 18)].
Proof. vm_compute. reflexivity. Qed.

Example ticker_comma :
  fst (fuzzy_search (s_ "AAPL, up") [s_ "AAPL"] (8 # 10) (s_ "ticker"))
  = Some [mkMatch (s_ "AAPL") (s_ "AAPL") (8 # 8)].
Proof. vm_compute. reflexivity. Qed.

Open Scope nat_scope.

(** ** Highlighter (lines 249-274)

    [word_sub_re = re.escape(word).replace('\\ ', '[\\n| ]*')]: every
    character of the word is a literal, every space becomes the class
    [[\n| ]*] (zero or more newlines, bars or spaces). *)

Inductive ptok := PLit (c : ascii) | PGap.

Definition word_sub_re (word : str) : list ptok :=
  map (fun c => if Ascii.eqb c space then PGap else PLit c) word.

Definition gap_class (c : ascii) : bool :=
  (code c =? 10) || (code c =? 124) || (code c =? 32).

Fixpoint class_run (s : str) : nat :=
  match s with
  | c :: s' => if gap_class c then S (class_run s') else 0
  | [] => 0
  end.

(** Python's backtracking matcher anchored at the start of [s]: the
    length of the first match found, a greedy [*] trying the longest run
    first. *)
Fixpoint match_at (p : list ptok) (s : str) : option nat :=
  match p with
  | [] => Some 0
  | PLit c :: p' =>
      match s with
      | c' :: s' => if ascii_dec c c' then option_map S (match_at p' s') else None
      | [] => None
      end
  | PGap :: p' =>
      let fix try_k (k : nat) : option nat :=
        let here := option_map (Nat.add k) (match_at p' (skipn k s)) in
        match k with
        | O => here
        | S k' => match here with Some n => Some n | None => try_k k' end
        end
      in try_k (class_run s)
  end.

(** [re.subn(pattern, repl, s)]: all non-overlapping matches, left to
    right; returns the new string and the number of substitutions.  The
    replacement is taken literally: matched words never hold a backslash,
    since [clean_input] (line 46) turns every backslash into a space. *)
Fixpoint subn_go (fuel : nat) (p : list ptok) (repl : str) (s : str) : str * nat :=
  match fuel with
  | O => (s, 0)
  | S f =>
      match match_at p s with
      | Some (S n) =>
          let (o, k) := subn_go f p repl (skipn (S n) s) in (repl ++ o, S k)
      | Some O =>
          match s with
          | [] => (repl, 1)
          | c :: s' => let (o, k) := subn_go f p repl s' in (repl ++ c :: o, S k)
          end
      | None =>
          match s with
          | [] => ([], 0)
          | c :: s' => let (o, k) := subn_go f p repl s' in (c :: o, k)
          end
      end
  end.

Definition re_subn (p : list ptok) (repl : str) (s : str) : str * nat :=
  subn_go (S (List.length s)) p repl s.

Definition dq : ascii := ascii_of_nat 34.

(** [<span style="background-color: #FFFF00">{word}</span>]. *)
Definition hl_open : str :=
  s_ "<span style=" ++ [dq] ++ s_ "background-color: #FFFF00" ++ [dq] ++ s_ ">".
Definition hl_close : str := s_ "</span>".

Definition hl_repl (word : str) : str := hl_open ++ word ++ hl_close.

(** Line 261: [(len(word) < 3 and (not word.isalnum() or word.isdigit()))
    or len(word) == 1]. *)
Definition hl_noisy (word : str) : bool :=
  ((List.length word <? 3) && (negb (py_isalnum word) || py_isdigit word))
  || (List.length word =? 1).

(** A report row: the match, whether it was highlighted (not red), and
    [subs_made] (0 where [re.subn] is not called). *)
Definition Row := (Match * bool * nat)%type.

Definition hl_step (doc : str) (m : Match) : str * Row :=
  let word := matched_word m in
  if hl_noisy word then (doc, (m, false, 0))
  else
    let (doc', subs_made) := re_subn (word_sub_re word) (hl_repl word) doc in
    if subs_made =? 0 then (doc', (m, false, 0)) else (doc', (m, true, subs_made)).

(** [for idx, row in matches_df.iterrows(): ...] over [updated_body_HTML]. *)
Fixpoint highlight (doc : str) (rows : list Match) : str * list Row :=
  match rows with
  | [] => (doc, [])
  | m :: rs =>
      let (doc1, row) := hl_step doc m in
      let (doc2, rows') := highlight doc1 rs in
      (doc2, row :: rows')
  end.

Example highlight_reflow :
  highlight (s_ "Apple" ++ [newline] ++ s_ "Inc") [mkMatch (s_ "Apple Inc") (s_ "Apple Inc") 1]
  = (hl_repl (s_ "Apple Inc"), [(mkMatch (s_ "Apple Inc") (s_ "Apple Inc") 1, true, 1%nat)]).
Proof. vm_compute. reflexivity. Qed.


(** * The rest of main.py *)

(** ** [re.sub] with a pattern given by its matcher

    [m s] is the length of the match Python's engine finds anchored at
    the start of [s] ([None]: no match there).  [re.sub] replaces all
    non-overlapping matches, scanning left to right, like [subn_go]. *)
Fixpoint sub_go (fuel : nat) (m : str -> option nat) (repl : str) (s : str) : str :=
  match fuel with
  | O => s
  | S f =>
      match m s with
      | Some (S n) => repl ++ sub_go f m repl (skipn (S n) s)
      | Some O =>
          match s with
          | [] => repl
          | c :: s' => repl ++ c :: sub_go f m repl s'
          end
      | None =>
          match s with
          | [] => []
          | c :: s' => c :: sub_go f m repl s'
          end
      end
  end.

Definition re_sub (m : str -> option nat) (repl : str) (s : str) : str :=
  sub_go (S (List.length s)) m repl s.

(** Length of the longest prefix of [s] in the character class [f]. *)
Fixpoint class_len (f : ascii -> bool) (s : str) : nat :=
  match s with
  | c :: s' => if f c then S (class_len f s') else 0
  | [] => 0
  end.

(** ** Restricted-word clean-up in [__main__] (line 307)

    [re.sub('\s\s+', ' ', x.strip())]: the pattern [\s\s+] matches, at a
    position holding two whitespace characters, the whole whitespace run
    (greedy [+]). *)
Definition ws2_match (s : str) : option nat :=
  match s with
  | c1 :: c2 :: r =>
      if py_isspace c1 && py_isspace c2 then Some (2 + class_len py_isspace r)
      else None
  | _ => None
  end.

Definition norm_restricted (x : str) : str := re_sub ws2_match [space] (py_strip x).

(** ** [get_list_of_chars] (lines 129-145)

    A JSON value as [json.load] returns it, and a dict as an association
    list with distinct keys; [d[k]] on a missing key raises [KeyError]. *)
#[warnings="-register-all"]
Inductive jval :=
| JNull
| JBool (b : bool)
| JNum (q : Q)
| JStr (s : str)
| JList (l : list jval)
| JObj (kvs : list (str * jval)).

Definition jdict := list (str * jval).

Fixpoint dict_get (d : jdict) (k : str) : option jval :=
  match d with
  | [] => None
  | (k', v) :: d' => if str_eqb k k' then Some v else dict_get d' k
  end.

Fixpoint all_some {A} (l : list (option A)) : option (list A) :=
  match l with
  | [] => Some []
  | x :: l' => let* a := x in let* r := all_some l' in Some (a :: r)
  end.

Definition jstr (v : jval) : option str :=
  match v with JStr s => Some s | _ => None end.

(** [''.join(v)]: iterating a str gives its characters, a list must hold
    only str items, a dict gives its keys; anything else raises
    [TypeError]. *)
Definition py_join_empty (v : jval) : option str :=
  match v with
  | JStr s => Some s
  | JList l => let* xs := all_some (map jstr l) in Some (List.concat xs)
  | JObj kvs => Some (List.concat (map fst kvs))
  | _ => None
  end.

(** [set(combined_string)]: the distinct characters.  A Python set has
    no specified order; first-occurrence order is used here, and what is
    proved about the result only uses membership and distinctness. *)
Fixpoint uniq_chars (seen : str) (s : str) : str :=
  match s with
  | [] => []
  | c :: s' =>
      if existsb (Ascii.eqb c) seen then uniq_chars seen s'
      else c :: uniq_chars (c :: seen) s'
  end.

Definition get_list_of_chars (json_data_issuer json_data_ticker : jdict)
           : option (list str) :=
  let* issuer_list := dict_get json_data_issuer (s_ "restricted_words") in
  let* ticker_list := dict_get json_data_ticker (s_ "restricted_words") in
  let* a := py_join_empty issuer_list in
  let* b := py_join_empty ticker_list in
  Some (map (fun c => [c]) (uniq_chars [] (a ++ b))).

(** ** [clean_input] (lines 15-58)

    [stop_words] is the content of [stopwords.txt] after [.split()], and
    [url_sub] is [re.sub(url_re, '', .)] for the pattern read from
    [url_regex.txt]: both come from files, so they are arguments.  The
    final [print] is output only. *)

(** [str.lower()] on Latin-1: A-Z and the letters 0xC0-0xDE but 0xD7. *)
Definition py_lower_c (c : ascii) : ascii :=
  if in_range 65 90 c || in_range 192 214 c || in_range 216 222 c
  then ascii_of_nat (code c + 32) else c.

Definition py_lower (s : str) : str := map py_lower_c s.

(** [x in xs] for a list of strings. *)
Definition str_in (x : str) (xs : list str) : bool := existsb (str_eqb x) xs.

(** The class [[\n\r\\]]. *)
Definition lf_char (c : ascii) : bool := (code c =? 10) || (code c =? 13) || (code c =? 92).

(** [[\w\.-]]. *)
Definition email_class (c : ascii) : bool := re_word c || (code c =? 46) || (code c =? 45).

(** [[\w\.-]+@[\w\.-]+]: '@' is not in the class, so the first greedy run
    can only succeed at its full length; the second is greedy. *)
Definition email_match (s : str) : option nat :=
  match class_len email_class s with
  | O => None
  | n1 =>
      match skipn n1 s with
      | c :: r =>
          if Ascii.eqb c "@"%char then
            match class_len email_class r with
            | O => None
            | n2 => Some (n1 + 1 + n2)
            end
          else None
      | [] => None
      end
  end.

Definition clean_input (stop_words : list str) (url_sub : str -> str)
           (input_string : str) (char_list : list str) : str :=
  let output := join_space (filter (fun x => negb (str_in (py_lower x) stop_words))
                                   (py_split input_string)) in
  let output := map (fun c => if lf_char c then space else c) output in
  let output := re_sub email_match [] output in
  let output := filter (fun x => str_in [x] char_list) output in
  url_sub output.

(** ** [main]: the HTML body and its text (lines 222-238)

    [html_tag_re = <(.|\n)*?>]: a [<], then the fewest characters up to a
    [>] ([(.|\n)] is any character). *)
Fixpoint index_of (f : ascii -> bool) (s : str) : option nat :=
  match s with
  | [] => None
  | c :: s' => if f c then Some 0 else option_map S (index_of f s')
  end.

Definition tag_match (s : str) : option nat :=
  match s with
  | c :: r =>
      if Ascii.eqb c "<"%char
      then option_map (fun i => 2 + i) (index_of (fun c => Ascii.eqb c ">"%char) r)
      else None
  | [] => None
  end.

(** [re.sub(html_tag_re, ' ', body_HTML)]. *)
Definition strip_tags (body_HTML : str) : str := re_sub tag_match [space] body_HTML.

(** [re.search('<body.*?>(.*?)<\/body>', s, flags=re.DOTALL|re.IGNORECASE)
    .group(1)]; [None] is the [AttributeError] of [None.group(1)].  Under
    IGNORECASE a literal letter matches both its cases. *)
Definition ci_eqb (c lit : ascii) : bool := Ascii.eqb (py_lower_c c) lit.

Fixpoint ci_prefix (lit s : str) : bool :=
  match lit, s with
  | [], _ => true
  | l :: lit', c :: s' => ci_eqb c l && ci_prefix lit' s'
  | _ :: _, [] => false
  end.

Fixpoint find_first {A} (f : nat -> option A) (ks : list nat) : option A :=
  match ks with
  | [] => None
  | k :: ks' => match f k with Some a => Some a | None => find_first f ks' end
  end.

Definition body_open : str := s_ "<body".
Definition body_close : str := s_ "</body>".

(** [(.*?)<\/body>]: the lazy group tries 0, 1, ... characters. *)
Definition group_at (r2 : str) : option str :=
  find_first (fun j => if ci_prefix body_close (skipn j r2) then Some (firstn j r2) else None)
             (seq 0 (S (List.length r2))).

(** [<body.*?>] then the group, anchored at the start of [s]. *)
Definition body_at (s : str) : option str :=
  if ci_prefix body_open s then
    let r := skipn 5 s in
    find_first (fun k => match nth_error r k with
                         | Some c => if Ascii.eqb c ">"%char
                                     then group_at (skipn (S k) r) else None
                         | None => None
                         end)
               (seq 0 (List.length r))
  else None.

Fixpoint body_search (s : str) : option str :=
  match body_at s with
  | Some g => Some g
  | None => match s with [] => None | _ :: s' => body_search s' end
  end.

(** ** [main]: the report table and the output page (lines 222-281) *)

(** HTML literals: a backquote stands for a double quote. *)
Definition h_ (s : string) : str :=
  map (fun c => if Ascii.eqb c "`"%char then dq else c) (s_ s).

(** A backslash-newline inside the literal joins the next line with its
    20-space indentation. *)
Definition indent : str := repeat space 20.

Definition result_HTML0 : str :=
  h_ "<html content=Word.Document><body><table width=`100%`> " ++ indent
  ++ h_ "<tr><th width=`75%`></th></tr> " ++ indent
  ++ h_ "<tr><td><span style=`padding: 0; margin: 0`>%EMAIL%</span></td> " ++ indent
  ++ h_ "<td style=`margin: 0; padding: 0`><span>%RESULTS%</span></td></tr></table></body></html>".

Definition result_table0 : str :=
  h_ "<table border=1 frame=void rules=rows> " ++ indent
  ++ h_ "<caption align=top style=`padding-bottom: 12.5px; font-size: 16px; text-align: left`><span style=`color: #FF4500; font-size: 25px; padding: 0px; margin: 0px`>&#8226; </span> " ++ indent
  ++ h_ "Red text is used for words that are matched but not highlighted.</caption> " ++ indent
  ++ h_ "<tr style=`background-color: #99C2FF`><th width=`37.5%` style=`padding-bottom: 7.5px; padding-top: 8.5px` align=left>Matched Word</th> " ++ indent
  ++ h_ "<th width=`37.5%` style=`padding-bottom: 7.5px; padding-top: 8.5px` align=left>Restricted Word</th> " ++ indent
  ++ h_ "<th width=`25%` style=`padding-bottom: 7.5px; padding-top: 8.5px` align=right>Match %</th></tr>".

Definition issuer_header : str :=
  h_ "<tr><center><td colspan=`3` style=`text-align: center; padding: 5px`><b>Issuer Names</b></td></center></tr>".

Definition ticker_header : str :=
  h_ "<tr><center><td colspan=`3` style=`text-align: center; padding: 5px`><b>Tickers</b></td></center></tr>".

Section Report.

(** [f'{(max_ratio / 1 * 100):.2f}']: the formatting of a float score. *)
Variable fmt_pct : Q -> str.

Definition red_row (word restricted_word_match : str) (max_ratio : Q) : str :=
  h_ "<tr><center><td style=`color: #FF4500`>" ++ word
  ++ h_ "</td><td style=`color: #FF4500`>" ++ restricted_word_match
  ++ h_ "</td><td style=`color: #FF4500` align=right>" ++ fmt_pct max_ratio
  ++ h_ "</td></center></tr>".

Definition plain_row (word restricted_word_match : str) (max_ratio : Q) : str :=
  h_ "<tr><center><td>" ++ word ++ h_ "</td><td>" ++ restricted_word_match
  ++ h_ "</td><td align=right>" ++ fmt_pct max_ratio ++ h_ "</td></center></tr>".

(** [for idx, row in matches_df.iterrows(): ...]: [n_issuer] and
    [n_ticker] are [len(matches_df_issuer.index)] and
    [len(matches_df_ticker.index)]; the state is
    [(updated_body_HTML, result_table)]. *)
Fixpoint main_loop (n_issuer n_ticker idx : nat) (rows : list Match)
         (updated_body_HTML result_table : str) : str * str :=
  match rows with
  | [] => (updated_body_HTML, result_table)
  | row :: rows' =>
      let result_table :=
        if (idx =? 0) && (0 <? n_issuer) then result_table ++ issuer_header
        else if (idx =? n_issuer) && (0 <? n_ticker) then result_table ++ ticker_header
        else result_table in
      let word := matched_word row in
      let rw := restricted_word row in
      let max_ratio := similarity row in
      if hl_noisy word
      then main_loop n_issuer n_ticker (S idx) rows' updated_body_HTML
             (result_table ++ red_row word rw max_ratio)
      else
        let (updated, subs_made) :=
          re_subn (word_sub_re word) (hl_repl word) updated_body_HTML in
        if subs_made =? 0
        then main_loop n_issuer n_ticker (S idx) rows' updated
               (result_table ++ red_row word rw max_ratio)
        else main_loop n_issuer n_ticker (S idx) rows' updated
               (result_table ++ plain_row word rw max_ratio)
  end.

(** The table row written for a report row of [highlight]. *)
Definition report_row (r : Row) : str :=
  match r with
  | (m, true, _) => plain_row (matched_word m) (restricted_word m) (similarity m)
  | (m, false, _) => red_row (matched_word m) (restricted_word m) (similarity m)
  end.

End Report.

(** [s.replace(old, new)]: every non-overlapping occurrence, left to
    right; an empty [old] inserts [new] around every character. *)
Fixpoint prefixb (p s : str) : bool :=
  match p, s with
  | [], _ => true
  | a :: p', b :: s' => Ascii.eqb a b && prefixb p' s'
  | _ :: _, [] => false
  end.

Fixpoint replace_go (fuel : nat) (old new s : str) : str :=
  match fuel with
  | O => s
  | S f =>
      match s with
      | [] => []
      | c :: s' =>
          if prefixb old s then new ++ replace_go f old new (skipn (List.length old) s)
          else c :: replace_go f old new s'
      end
  end.

Definition py_replace (old new s : str) : str :=
  match old with
  | [] => new ++ List.concat (map (fun c => c :: new) s)
  | _ => replace_go (S (List.length s)) old new s
  end.

Definition placeholder_email : str := s_ "%EMAIL%".
Definition placeholder_results : str := s_ "%RESULTS%".

(** The parts of [result_HTML] around its two placeholders. *)
Definition html_head : str :=
  h_ "<html content=Word.Document><body><table width=`100%`> " ++ indent
  ++ h_ "<tr><th width=`75%`></th></tr> " ++ indent
  ++ h_ "<tr><td><span style=`padding: 0; margin: 0`>".
Definition html_mid : str :=
  h_ "</span></td> " ++ indent ++ h_ "<td style=`margin: 0; padding: 0`><span>".
Definition html_foot : str := h_ "</span></td></tr></table></body></html>".

(** Lines 277-279. *)
Definition main_tail (email_body body_HTML updated_body_HTML result_table : str) : str :=
  let email_body := py_replace body_HTML updated_body_HTML email_body in
  let result_table := result_table ++ s_ "</table>" in
  py_replace placeholder_results result_table
    (py_replace placeholder_email email_body result_HTML0).

(** [main] from the body on, for given issuer and ticker tables (their
    computation from the body text, through [html.unescape], [clean_input]
    and [fuzzy_search], is left out). *)
Definition main_report (fmt_pct : Q -> str) (email_body : str)
           (issuer_rows ticker_rows : list Match) : option str :=
  let* body_HTML := body_search email_body in
  let (updated_body_HTML, result_table) :=
    main_loop fmt_pct (List.length issuer_rows) (List.length ticker_rows) 0
      (issuer_rows ++ ticker_rows) body_HTML result_table0 in
  Some (main_tail email_body body_HTML updated_body_HTML result_table).


(** * Proofs *)

(** ** Helper lemmas: the n-gram generator *)

Section Ngrams.

Variable list_str : list str.
Variable ngrams_value : nat.

Lemma ngram_inner_eq : forall fuel i j temp,
  j <= ngrams_value -> ngrams_value - j <= fuel ->
  ngram_inner list_str ngrams_value i j temp fuel
  = temp ++ List.concat (map (fun k => space :: nth (i + k) list_str [])
                        (seq j (ngrams_value - j))).
Proof.
  induction fuel as [|fuel IH]; intros i j temp Hj Hf; simpl.
  - replace (ngrams_value - j) with 0 by lia. simpl. now rewrite app_nil_r.
  - destruct (Nat.ltb_spec j ngrams_value) as [Hlt|Hge].
    + rewrite IH by lia.
      replace (ngrams_value - j) with (S (ngrams_value - S j)) by lia.
      simpl. now rewrite <- app_assoc.
    + replace (ngrams_value - j) with 0 by lia. simpl. now rewrite app_nil_r.
Qed.

Lemma ngram_outer_eq : forall fuel i,
  S (List.length list_str) <= fuel + i ->
  ngram_outer list_str ngrams_value i fuel
  = map (fun k => py_strip (ngram_inner list_str ngrams_value k 0 [] ngrams_value))
        (seq i (S (List.length list_str) - ngrams_value - i)).
Proof.
  induction fuel as [|fuel IH]; intros i Hf; cbn [ngram_outer].
  - replace (S (List.length list_str) - ngrams_value - i) with 0 by lia.
    reflexivity.
  - destruct (Z.leb_spec (Z.of_nat i)
                (Z.of_nat (List.length list_str) - Z.of_nat ngrams_value)) as [Hle|Hgt].
    + rewrite IH by lia.
      replace (S (List.length list_str) - ngrams_value - i)
        with (S (S (List.length list_str) - ngrams_value - S i)) by lia.
      reflexivity.
    + replace (S (List.length list_str) - ngrams_value - i) with 0 by lia.
      reflexivity.
Qed.

End Ngrams.

Lemma concat_space_join : forall xs : list str,
  xs <> [] -> List.concat (map (fun x => space :: x) xs) = space :: join_space xs.
Proof.
  induction xs as [|x xs IH]; intros Hne; [congruence|].
  destruct xs as [|y ys].
  - simpl. now rewrite app_nil_r.
  - change (List.concat (map (fun x0 => space :: x0) (x :: y :: ys)))
      with ((space :: x) ++ List.concat (map (fun x0 => space :: x0) (y :: ys))).
    rewrite IH by discriminate. reflexivity.
Qed.

Lemma map_nth_seq_firstn : forall (ls : list str) n i,
  i + n <= List.length ls ->
  map (fun k => nth (i + k) ls []) (seq 0 n) = firstn n (skipn i ls).
Proof.
  induction ls as [|x ls IH]; intros n i H.
  - simpl in H. replace n with 0 by lia. reflexivity.
  - destruct i as [|i].
    + destruct n as [|n]; [reflexivity|].
      simpl. f_equal. rewrite <- seq_shift, map_map.
      transitivity (map (fun k => nth (0 + k) ls []) (seq 0 n)).
      * apply map_ext. intros k. reflexivity.
      * apply IH. simpl in H. lia.
    + simpl. rewrite <- (IH n i) by (simpl in H; lia).
      apply map_ext. intros k. reflexivity.
Qed.

Lemma py_strip_space : forall x, py_strip (space :: x) = py_strip x.
Proof. reflexivity. Qed.

Lemma get_ngrams_eq (tokens : list str) (window : nat) :
  1 <= window ->
  get_ngrams tokens window
  = map (fun i => py_strip (join_space (firstn window (skipn i tokens))))
        (seq 0 (List.length tokens + 1 - window)).
Proof.
  intros Hw. unfold get_ngrams.
  rewrite ngram_outer_eq by lia.
  replace (S (List.length tokens) - window - 0)
    with (List.length tokens + 1 - window) by lia.
  apply map_ext_in. intros k Hk. apply in_seq in Hk.
  rewrite ngram_inner_eq by lia. rewrite Nat.sub_0_r. simpl app.
  rewrite <- (map_map (fun k' => nth (k + k') tokens [])
                      (fun x => space :: x)).
  rewrite concat_space_join.
  - rewrite py_strip_space, map_nth_seq_firstn by lia. reflexivity.
  - destruct window as [|w]; [lia|]. simpl. discriminate.
Qed.

(** C7: for every token sequence and window length [>= 1], [get_ngrams]
    returns [max(0, len(tokens) - window + 1)] windows; the i-th is the
    space-joined tokens [i .. i+window-1], stripped; with fewer tokens than
    the window it returns no window. *)
Theorem get_ngrams_windows (tokens : list str) (window : nat) (Hw : 1 <= window) :
  Z.of_nat (List.length (get_ngrams tokens window))
    = Z.max 0 (Z.of_nat (List.length tokens) - Z.of_nat window + 1)
  /\ get_ngrams tokens window
     = map (fun i => py_strip (join_space (firstn window (skipn i tokens))))
           (seq 0 (List.length tokens + 1 - window))
  /\ (List.length tokens < window -> get_ngrams tokens window = []).
Proof.
  rewrite (get_ngrams_eq tokens window Hw).
  split; [|split; [reflexivity|]].
  - rewrite length_map, length_seq. lia.
  - intros Hlt. replace (List.length tokens + 1 - window) with 0 by lia.
    reflexivity.
Qed.

Lemma get_ngrams_windows_witness :
  1 <= 2 /\
  Z.of_nat (List.length (get_ngrams [s_ "Apple"; s_ "Inc"; s_ "reported"] 2))
    = Z.max 0 (Z.of_nat 3 - Z.of_nat 2 + 1).
Proof.
  split; [lia|].
  exact (proj1 (get_ngrams_windows [s_ "Apple"; s_ "Inc"; s_ "reported"] 2
                  ltac:(lia))).
Defined.

(** ** The noise filter of the Highlighter *)

(** C8: a ranked match whose text has length < 3 and is not alphanumeric
    or is all digits, or has length 1 (e.g. ["@!"]), is reported with
    [highlighted = false]; no substitution is made and the document is
    left as it was. *)
Theorem hl_noisy_not_highlighted (doc : str) (m : Match) :
  hl_noisy (matched_word m) = true ->
  hl_step doc m = (doc, (m, false, 0))
  /\ (forall rs, highlight doc (m :: rs)
                 = let (d, rows) := highlight doc rs in (d, (m, false, 0) :: rows)).
Proof.
  intros Hn. unfold hl_step. rewrite Hn. split; [reflexivity|].
  intros rs. simpl. unfold hl_step. rewrite Hn. reflexivity.
Qed.

Lemma hl_noisy_not_highlighted_witness :
  hl_noisy (s_ "@!") = true /\
  hl_step (s_ "a @! b") (mkMatch (s_ "@!") (s_ "@!") 1)
  = (s_ "a @! b", (mkMatch (s_ "@!") (s_ "@!") 1, false, 0)).
Proof.
  split; [reflexivity|].
  exact (proj1 (hl_noisy_not_highlighted (s_ "a @! b")
                  (mkMatch (s_ "@!") (s_ "@!") 1) eq_refl)).
Defined.

(** ** Helper lemmas: scores, rows of [get_matches] *)

Lemma q_ltb_lt : forall x y, q_ltb x y = true -> (x < y)%Q.
Proof.
  intros x y H. unfold q_ltb in H. apply negb_true_iff in H.
  apply Qnot_le_lt. intros Hle. apply Qle_bool_iff in Hle. congruence.
Qed.

Lemma q_ltb_false : forall x y, q_ltb x y = false -> (y <= x)%Q.
Proof.
  intros x y H. unfold q_ltb in H. apply negb_false_iff in H.
  now apply Qle_bool_iff.
Qed.

Lemma ratio_raw_nonneg : forall a b, (0 <= ratio_raw a b)%Q.
Proof.
  intros a b. unfold ratio_raw.
  destruct (_ =? 0); [discriminate|].
  unfold Qle. simpl. lia.
Qed.

Lemma ratio_some : forall a b t r,
  ratio a b t = Some r ->
  (0 <= t)%Q /\ (t <= 1)%Q /\
  ((t <= ratio_raw a b)%Q /\ r = ratio_raw a b \/ r = 0%Q /\ (ratio_raw a b < t)%Q).
Proof.
  intros a b t r H. unfold ratio in H.
  destruct (q_ltb t 0) eqn:E1; [discriminate|].
  destruct (q_ltb 1 t) eqn:E2; [discriminate|].
  apply q_ltb_false in E1, E2. split; [exact E1|]. split; [exact E2|].
  destruct (Qle_bool t (ratio_raw a b)) eqn:E3; injection H as <-.
  - left. split; [now apply Qle_bool_iff|reflexivity].
  - right. split; [reflexivity|]. apply Qnot_le_lt.
    intros Hle. apply Qle_bool_iff in Hle. congruence.
Qed.

Lemma match_phrases_sound : forall input rl t typ ms,
  match_phrases input rl t typ = Some ms ->
  forall row, In row ms ->
  In (restricted_word row) rl /\ matched_word row = py_strip input
  /\ (t < similarity row)%Q.
Proof.
  intros input rl t typ. induction rl as [|res rl IH]; intros ms H row Hin; simpl in H.
  - injection H as <-. destruct Hin.
  - destruct (ratio _ res t) as [r|] eqn:Er; [|discriminate].
    destruct (match_phrases input rl t typ) as [rest|] eqn:Erest; [|discriminate].
    injection H as <-.
    destruct (q_ltb t r) eqn:Elt.
    + destruct Hin as [<-|Hin].
      * simpl. split; [now left|]. split; [reflexivity|]. now apply q_ltb_lt.
      * destruct (IH rest eq_refl row Hin) as (H1 & H2 & H3).
        split; [now right|]. now split.
    + destruct (IH rest eq_refl row Hin) as (H1 & H2 & H3).
      split; [now right|]. now split.
Qed.

Lemma get_matches_sound : forall cl rl t typ ms,
  get_matches cl rl t typ = Some ms ->
  forall row, In row ms ->
  exists cand, In cand cl
    /\ ((List.length cand =? 0) || py_isspace_s cand) = false
    /\ In (restricted_word row) rl
    /\ matched_word row = py_strip (trim_last cand)
    /\ (t < similarity row)%Q.
Proof.
  intros cl rl t typ. induction cl as [|input cl IH]; intros ms H row Hin; simpl in H.
  - injection H as <-. destruct Hin.
  - destruct ((List.length input =? 0) || py_isspace_s input) eqn:Eskip.
    + destruct (IH ms H row Hin) as (cand & Hc & Hrest).
      exists cand. split; [now right|exact Hrest].
    + destruct (match_phrases (trim_last input) rl t typ) as [ms1|] eqn:E1;
        [|discriminate].
      destruct (get_matches cl rl t typ) as [rest|] eqn:E2; [|discriminate].
      injection H as <-. apply in_app_or in Hin as [Hin|Hin].
      * destruct (match_phrases_sound _ _ _ _ _ E1 row Hin) as (H1 & H2 & H3).
        exists input. split; [now left|]. split; [exact Eskip|]. now split.
      * destruct (IH rest eq_refl row Hin) as (cand & Hc & Hrest).
        exists cand. split; [now right|exact Hrest].
Qed.

(** C10: every accepted match stores, as [matched_word], the candidate
    n-gram with at most one trailing punctuation character removed
    ([trim_last]: a last character outside [\w], [\d], [\s] and ['.'])
    and then stripped, for both list types; for tickers it is not the
    alphanumeric-reduced text that was scored (e.g. ["AA-PL,"] is stored
    as ["AA-PL"] while ["AAPL"] was scored). *)
Theorem get_matches_matched_text (cl rl : list str) (t : Q) (typ : str)
        (ms : list Match) :
  get_matches cl rl t typ = Some ms ->
  (forall row, In row ms ->
   exists cand, In cand cl
     /\ In (restricted_word row) rl
     /\ matched_word row = py_strip (trim_last cand))
  /\ get_matches [s_ "AA-PL,"] [s_ "AAPL"] (4 # 5) (s_ "ticker")
     = Some [mkMatch (s_ "AA-PL") (s_ "AAPL") (8 # 8)].
Proof.
  intros H. split.
  - intros row Hin.
    destruct (get_matches_sound _ _ _ _ _ H row Hin) as (cand & H1 & _ & H3 & H4 & _).
    exists cand. now repeat split.
  - vm_compute. reflexivity.
Qed.

Lemma get_matches_matched_text_witness :
  get_matches [s_ "AA-PL,"; s_ "MSFT"] [s_ "AAPL"] (4 # 5) (s_ "ticker")
    = Some [mkMatch (s_ "AA-PL") (s_ "AAPL") (8 # 8)]
  /\ exists cand, In cand [s_ "AA-PL,"; s_ "MSFT"]
       /\ In (s_ "AAPL") [s_ "AAPL"]
       /\ s_ "AA-PL" = py_strip (trim_last cand).
Proof.
  assert (H : get_matches [s_ "AA-PL,"; s_ "MSFT"] [s_ "AAPL"] (4 # 5) (s_ "ticker")
              = Some [mkMatch (s_ "AA-PL") (s_ "AAPL") (8 # 8)])
    by (vm_compute; reflexivity).
  split; [exact H|].
  exact (proj1 (get_matches_matched_text _ _ _ _ _ H)
           (mkMatch (s_ "AA-PL") (s_ "AAPL") (8 # 8)) (or_introl eq_refl)).
Defined.

(** ** Helper lemmas: sorting and deduplication keep rows *)

Lemma insert_by_perm {A} (gt : A -> A -> bool) : forall x l,
  Permutation (insert_by gt x l) (x :: l).
Proof.
  intros x l. induction l as [|y l IH]; simpl; [reflexivity|].
  destruct (gt y x).
  - rewrite IH. apply perm_swap.
  - reflexivity.
Qed.

Lemma sort_by_perm {A} (gt : A -> A -> bool) : forall l,
  Permutation (sort_by gt l) l.
Proof.
  induction l as [|x l IH]; simpl; [reflexivity|].
  rewrite insert_by_perm. now apply perm_skip.
Qed.

Lemma drop_dup_go_incl {A} (key : A -> str) : forall l seen x,
  In x (drop_dup_go key seen l) -> In x l.
Proof.
  induction l as [|y l IH]; intros seen x Hin; simpl in *; [exact Hin|].
  destruct (existsb (str_eqb (key y)) seen).
  - right. eapply IH. exact Hin.
  - destruct Hin as [<-|Hin]; [now left|]. right. eapply IH. exact Hin.
Qed.

Lemma rank_dedup_incl : forall l x, In x (rank_dedup l) -> In x l.
Proof.
  intros l x Hin. unfold rank_dedup, dedup_passes, drop_dup in Hin.
  apply drop_dup_go_incl, drop_dup_go_incl in Hin.
  eapply Permutation_in; [apply sort_by_perm|exact Hin].
Qed.

Lemma collect_sound : forall cl rw t typ n ms,
  collect cl rw t typ n = Some ms ->
  forall row, In row ms -> (t < similarity row)%Q.
Proof.
  intros cl rw t typ. induction n as [|n IH]; intros ms H row Hin; simpl in H.
  - injection H as <-. destruct Hin.
  - destruct (match filter _ rw with [] => Some [] | _ => _ end) as [cur|] eqn:E1;
      [|discriminate].
    destruct (collect cl rw t typ n) as [rest|] eqn:E2; [|discriminate].
    injection H as <-. apply in_app_or in Hin as [Hin|Hin].
    + destruct (filter _ rw) as [|e es].
      * injection E1 as <-. destruct Hin.
      * destruct (get_matches_sound _ _ _ _ _ E1 row Hin) as (? & _ & _ & _ & _ & Ht).
        exact Ht.
    + exact (IH rest eq_refl row Hin).
Qed.

(** C2: every row of the table returned by [fuzzy_search] has a score
    strictly above the threshold of its list, and a (candidate, phrase)
    pair whose score does not exceed the threshold gives no row. *)
Theorem fuzzy_search_above_threshold (doc : str) (rl : list str) (t : Q)
        (typ : str) (rows : list Match) :
  fst (fuzzy_search doc rl t typ) = Some rows ->
  (forall row, In row rows -> (t < similarity row)%Q)
  /\ (forall cand res ms,
        (ratio_raw (scored_text typ (trim_last cand)) res <= t)%Q ->
        get_matches [cand] [res] t typ = Some ms -> ms = []).
Proof.
  intros H. split.
  - intros row Hin. unfold fuzzy_search in H.
    destruct (sort_by wc_gt rl) as [|w0 ws]; [discriminate|].
    simpl in H.
    destruct (collect _ _ t typ _) as [ms|] eqn:E; [|discriminate].
    injection H as <-. apply rank_dedup_incl in Hin.
    exact (collect_sound _ _ _ _ _ _ E row Hin).
  - intros cand res ms Hle Hm. simpl in Hm.
    destruct ((List.length cand =? 0) || py_isspace_s cand); [now injection Hm|].
    destruct (ratio _ res t) as [r|] eqn:Er; [|discriminate].
    injection Hm as <-.
    destruct (q_ltb t r) eqn:Elt; [|reflexivity].
    apply q_ltb_lt in Elt.
    destruct (ratio_some _ _ _ _ Er) as (_ & _ & [[_ ->] | [-> Hlt]]).
    + exfalso. apply (Qlt_not_le _ _ Elt Hle).
    + exfalso. pose proof (ratio_raw_nonneg (scored_text typ (trim_last cand)) res).
      apply (Qlt_not_le _ _ Elt). apply Qlt_le_weak.
      apply (Qle_lt_trans _ _ _ H0 Hlt).
Qed.

Lemma fuzzy_search_above_threshold_witness :
  fst (fuzzy_search (s_ "Apple Inc reported earnings") [s_ "Apple Inc"]
         (85 # 100) (s_ "issuer"))
    = Some [mkMatch (s_ "Apple Inc") (s_ "Apple Inc") (18 # 18)]
  /\ (85 # 100 < 18 # 18)%Q.
Proof.
  assert (H : fst (fuzzy_search (s_ "Apple Inc reported earnings") [s_ "Apple Inc"]
                     (85 # 100) (s_ "issuer"))
              = Some [mkMatch (s_ "Apple Inc") (s_ "Apple Inc") (18 # 18)])
    by (vm_compute; reflexivity).
  split; [exact H|].
  exact (proj1 (fuzzy_search_above_threshold _ _ _ _ _ H) _ (or_introl eq_refl)).
Defined.

(** ** Configuration errors *)

Lemma ratio_ok : forall a b t,
  (0 <= t)%Q -> (t <= 1)%Q -> exists r, ratio a b t = Some r.
Proof.
  intros a b t H0 H1. unfold ratio.
  destruct (q_ltb t 0) eqn:E1.
  { apply q_ltb_lt in E1. exfalso. exact (Qlt_not_le _ _ E1 H0). }
  destruct (q_ltb 1 t) eqn:E2.
  { apply q_ltb_lt in E2. exfalso. exact (Qlt_not_le _ _ E2 H1). }
  simpl. destruct (Qle_bool t (ratio_raw a b)); eexists; reflexivity.
Qed.

Lemma match_phrases_ok : forall input rl t typ,
  (0 <= t)%Q -> (t <= 1)%Q -> exists ms, match_phrases input rl t typ = Some ms.
Proof.
  intros input rl t typ H0 H1. induction rl as [|res rl IH]; simpl.
  - eexists; reflexivity.
  - destruct (ratio_ok (scored_text typ input) res t H0 H1) as [r ->].
    destruct IH as [ms ->]. eexists; reflexivity.
Qed.

Lemma get_matches_ok : forall cl rl t typ,
  (0 <= t)%Q -> (t <= 1)%Q -> exists ms, get_matches cl rl t typ = Some ms.
Proof.
  intros cl rl t typ H0 H1. induction cl as [|input cl IH]; simpl.
  - eexists; reflexivity.
  - destruct (_ || _); [exact IH|].
    destruct (match_phrases_ok (trim_last input) rl t typ H0 H1) as [ms1 ->].
    destruct IH as [ms ->]. eexists; reflexivity.
Qed.

Lemma collect_ok : forall cl rw t typ n,
  (0 <= t)%Q -> (t <= 1)%Q -> exists ms, collect cl rw t typ n = Some ms.
Proof.
  intros cl rw t typ n H0 H1. induction n as [|n IH]; simpl.
  - eexists; reflexivity.
  - destruct IH as [rest Hrest].
    destruct (filter _ rw) as [|e es].
    + rewrite Hrest. eexists; reflexivity.
    + destruct (get_matches_ok (get_ngrams cl (S n)) (e :: es) t typ H0 H1) as [cur ->].
      rewrite Hrest. eexists; reflexivity.
Qed.

Lemma sort_by_nil {A} (gt : A -> A -> bool) : forall l, sort_by gt l = [] -> l = [].
Proof.
  intros l H. apply Permutation_nil. rewrite <- H. apply sort_by_perm.
Qed.

(** C5 (counterexample): the threshold is not checked against the open
    interval (0,1); at the threshold 1 and at 0 the pass returns a table
    and raises nothing. *)
Lemma fuzzy_search_threshold_unchecked :
  fst (fuzzy_search (s_ "Apple Inc") [s_ "Apple Inc"] 1 (s_ "issuer")) = Some []
  /\ fst (fuzzy_search (s_ "Apple Inc") [s_ "Apple Inc"] 0 (s_ "issuer"))
     = Some [mkMatch (s_ "Apple Inc") (s_ "Apple Inc") (18 # 18)].
Proof. split; vm_compute; reflexivity. Qed.

(** C5 (as the code behaves): an empty restricted list makes
    [fuzzy_search] raise ([restricted_words[0]] is an [IndexError]); for a
    non-empty list every threshold in [[0, 1]], the endpoints included,
    gives a match table and no error. *)
Theorem fuzzy_search_config_errors (doc : str) (rl : list str) (t : Q) (typ : str) :
  (rl = [] -> fst (fuzzy_search doc rl t typ) = None)
  /\ (rl <> [] -> (0 <= t)%Q -> (t <= 1)%Q ->
      exists rows, fst (fuzzy_search doc rl t typ) = Some rows).
Proof.
  split.
  - intros ->. reflexivity.
  - intros Hne H0 H1. unfold fuzzy_search.
    destruct (sort_by wc_gt rl) as [|w0 ws] eqn:E.
    + exfalso. exact (Hne (sort_by_nil _ _ E)).
    + simpl.
      destruct (collect_ok (py_split (replace_nl doc)) (w0 :: ws) t typ
                  (word_count w0) H0 H1) as [ms ->].
      eexists; reflexivity.
Qed.

Lemma fuzzy_search_config_errors_witness :
  fst (fuzzy_search (s_ "Apple Inc") [] (1 # 2) (s_ "issuer")) = None
  /\ exists rows, fst (fuzzy_search (s_ "Apple Inc") [s_ "Apple Inc"] 1 (s_ "issuer"))
                  = Some rows.
Proof.
  split.
  - exact (proj1 (fuzzy_search_config_errors (s_ "Apple Inc") [] (1 # 2) (s_ "issuer"))
             eq_refl).
  - apply (proj2 (fuzzy_search_config_errors (s_ "Apple Inc") [s_ "Apple Inc"] 1
                    (s_ "issuer"))).
    + discriminate.
    + unfold Qle. simpl. lia.
    + unfold Qle. simpl. lia.
Defined.

(** ** Helper lemmas: the insertion sort is sorted and stable *)

Section SortBy.

Context {A : Type} (gt : A -> A -> bool) (R : A -> A -> Prop).
Hypothesis gt_false : forall x y, gt y x = false -> R x y.
Hypothesis gt_true : forall x y, gt y x = true -> R y x.

Lemma insert_by_sorted : forall l x, Sorted R l -> Sorted R (insert_by gt x l).
Proof.
  induction l as [|y l IH]; intros x Hs; simpl.
  - repeat constructor.
  - destruct (gt y x) eqn:E.
    + apply Sorted_inv in Hs as [Hs Hd]. constructor; [now apply IH|].
      destruct l as [|z l]; simpl.
      * constructor. now apply gt_true.
      * destruct (gt z x); constructor.
        -- now inversion Hd.
        -- now apply gt_true.
    + constructor; [exact Hs|]. constructor. now apply gt_false.
Qed.

Lemma sort_by_sorted : forall l, Sorted R (sort_by gt l).
Proof.
  induction l as [|x l IH]; simpl; [constructor|]. now apply insert_by_sorted.
Qed.

End SortBy.

(** Stability: the elements of one key keep their order, for any
    predicate [f] that holds of no element strictly above one it holds of. *)
Lemma insert_by_filter {A} (gt : A -> A -> bool) (f : A -> bool) :
  (forall x y, f x = true -> gt y x = true -> f y = false) ->
  forall l x, filter f (insert_by gt x l) = filter f (x :: l).
Proof.
  intros Hf l x. induction l as [|y l IH]; simpl; [reflexivity|].
  destruct (gt y x) eqn:E; [|reflexivity].
  simpl. rewrite IH. simpl.
  destruct (f x) eqn:Fx.
  - rewrite (Hf x y Fx E). reflexivity.
  - reflexivity.
Qed.

Lemma sort_by_filter {A} (gt : A -> A -> bool) (f : A -> bool) :
  (forall x y, f x = true -> gt y x = true -> f y = false) ->
  forall l, filter f (sort_by gt l) = filter f l.
Proof.
  intros Hf l. induction l as [|x l IH]; simpl; [reflexivity|].
  rewrite (insert_by_filter gt f Hf). simpl. rewrite IH. reflexivity.
Qed.

(** ** The caller's restricted list *)

(** C9 (counterexample): [restricted_words.sort(...)] reorders the
    caller's list in place: [["A"; "B C"]] comes back as [["B C"; "A"]]. *)
Lemma fuzzy_search_reorders_caller_list :
  snd (fuzzy_search (s_ "x") [s_ "A"; s_ "B C"] (1 # 2) (s_ "issuer"))
    = [s_ "B C"; s_ "A"]
  /\ snd (fuzzy_search (s_ "x") [s_ "A"; s_ "B C"] (1 # 2) (s_ "issuer"))
     <> [s_ "A"; s_ "B C"].
Proof. split; vm_compute; [reflexivity|discriminate]. Qed.

(** C9 (as the code behaves): when [fuzzy_search] returns, the caller's
    list holds the same phrases, sorted by descending word count, phrases
    of equal word count in their original order. *)
Theorem fuzzy_search_caller_list (doc : str) (rl : list str) (t : Q) (typ : str) :
  Permutation (snd (fuzzy_search doc rl t typ)) rl
  /\ Sorted (fun a b => word_count b <= word_count a) (snd (fuzzy_search doc rl t typ))
  /\ (forall n, filter (fun e => word_count e =? n) (snd (fuzzy_search doc rl t typ))
                = filter (fun e => word_count e =? n) rl).
Proof.
  assert (Hsnd : snd (fuzzy_search doc rl t typ) = sort_by wc_gt rl).
  { unfold fuzzy_search. destruct (sort_by wc_gt rl); reflexivity. }
  rewrite Hsnd. split; [apply sort_by_perm|split].
  - apply sort_by_sorted.
    + intros x y E. unfold wc_gt in E. apply Nat.ltb_ge in E. exact E.
    + intros x y E. unfold wc_gt in E. apply Nat.ltb_lt in E. lia.
  - intros n. apply sort_by_filter.
    intros x y Fx E. unfold wc_gt in E. apply Nat.ltb_lt in E.
    apply Nat.eqb_eq in Fx. apply Nat.eqb_neq. lia.
Qed.

(** ** Helper lemmas: [drop_duplicates(keep='first')] *)

Lemma str_eqb_eq : forall a b, str_eqb a b = true <-> a = b.
Proof.
  intros a b. unfold str_eqb. destruct (list_eq_dec ascii_dec a b); split;
    congruence.
Qed.

Lemma existsb_str_eqb : forall k seen, existsb (str_eqb k) seen = true <-> In k seen.
Proof.
  intros k seen. rewrite existsb_exists. split.
  - intros (k' & Hin & E). apply str_eqb_eq in E. now subst.
  - intros Hin. exists k. split; [exact Hin|]. now apply str_eqb_eq.
Qed.

Section DropDup.

Context {A : Type} (key : A -> str).

Lemma drop_dup_go_fresh : forall l seen x,
  In x (drop_dup_go key seen l) -> ~ In (key x) seen.
Proof.
  induction l as [|y l IH]; intros seen x Hin; simpl in Hin; [destruct Hin|].
  destruct (existsb (str_eqb (key y)) seen) eqn:E.
  - exact (IH seen x Hin).
  - destruct Hin as [<-|Hin].
    + intros Hk. apply existsb_str_eqb in Hk. congruence.
    + intros Hk. apply (IH _ x Hin). now right.
Qed.

Lemma drop_dup_go_nodup : forall l seen,
  NoDup (map key (drop_dup_go key seen l)).
Proof.
  induction l as [|y l IH]; intros seen; simpl; [constructor|].
  destruct (existsb (str_eqb (key y)) seen); [apply IH|].
  simpl. constructor; [|apply IH].
  intros Hin. apply in_map_iff in Hin as (x & Hk & Hx).
  apply (drop_dup_go_fresh _ _ _ Hx). rewrite Hk. now left.
Qed.

Lemma drop_dup_go_first : forall l seen x,
  In x (drop_dup_go key seen l) ->
  find (fun y => str_eqb (key y) (key x)) l = Some x.
Proof.
  induction l as [|y l IH]; intros seen x Hin; simpl in Hin; [destruct Hin|].
  simpl. destruct (existsb (str_eqb (key y)) seen) eqn:E.
  - destruct (str_eqb (key y) (key x)) eqn:Exy.
    + apply str_eqb_eq in Exy. apply existsb_str_eqb in E.
      exfalso. apply (drop_dup_go_fresh _ _ _ Hin). now rewrite <- Exy.
    + exact (IH seen x Hin).
  - destruct Hin as [<-|Hin].
    + assert (str_eqb (key y) (key y) = true) as -> by now apply str_eqb_eq.
      reflexivity.
    + destruct (str_eqb (key y) (key x)) eqn:Exy.
      * apply str_eqb_eq in Exy.
        exfalso. apply (drop_dup_go_fresh _ _ _ Hin). rewrite <- Exy. now left.
      * exact (IH _ x Hin).
Qed.

Lemma drop_dup_go_cover : forall l seen y,
  In y l -> In (key y) seen \/ exists x, In x (drop_dup_go key seen l) /\ key x = key y.
Proof.
  induction l as [|z l IH]; intros seen y Hin; [destruct Hin|].
  simpl. destruct (existsb (str_eqb (key z)) seen) eqn:E.
  - destruct Hin as [<-|Hin].
    + left. now apply existsb_str_eqb.
    + exact (IH seen y Hin).
  - destruct Hin as [<-|Hin].
    + right. exists z. split; [now left|reflexivity].
    + destruct (IH (key z :: seen) y Hin) as [[Hk|Hk]|(x & Hx & Hk)].
      * right. exists z. split; [now left|exact Hk].
      * now left.
      * right. exists x. split; [now right|exact Hk].
Qed.

Lemma drop_dup_go_ssorted (R : A -> A -> Prop) : forall l seen,
  StronglySorted R l -> StronglySorted R (drop_dup_go key seen l).
Proof.
  induction l as [|y l IH]; intros seen Hs; simpl; [constructor|].
  apply StronglySorted_inv in Hs as [Hs Hf].
  destruct (existsb (str_eqb (key y)) seen); [now apply IH|].
  constructor; [now apply IH|].
  rewrite Forall_forall in *. intros x Hx. apply Hf.
  eapply drop_dup_go_incl. exact Hx.
Qed.

End DropDup.

Lemma find_ssorted_min {A} (R : A -> A -> Prop) (f : A -> bool) :
  (forall x, R x x) ->
  forall s x, StronglySorted R s -> find f s = Some x ->
  forall y, In y s -> f y = true -> R x y.
Proof.
  intros Hrefl s. induction s as [|z s IH]; intros x Hs Hfind y Hy Hfy;
    simpl in Hfind; [discriminate|].
  apply StronglySorted_inv in Hs as [Hs Hall].
  destruct (f z) eqn:Fz.
  - injection Hfind as <-. destruct Hy as [<-|Hy]; [apply Hrefl|].
    rewrite Forall_forall in Hall. now apply Hall.
  - destruct Hy as [<-|Hy]; [congruence|]. exact (IH x Hs Hfind y Hy Hfy).
Qed.


Lemma sim_ge_refl : forall x, sim_ge x x.
Proof. intros x. unfold sim_ge. apply Qle_refl. Qed.

Lemma sim_ge_trans : Transitive sim_ge.
Proof. intros x y z H1 H2. unfold sim_ge in *. eapply Qle_trans; eauto. Qed.

Lemma drop_dup_go_nodup_other {A} (key k : A -> str) : forall l seen,
  NoDup (map k l) -> NoDup (map k (drop_dup_go key seen l)).
Proof.
  induction l as [|y l IH]; intros seen Hnd; simpl; [constructor|].
  simpl in Hnd. apply NoDup_cons_iff in Hnd as [Hy Hnd].
  destruct (existsb (str_eqb (key y)) seen); [now apply IH|].
  simpl. constructor; [|now apply IH].
  intros Hin. apply Hy. apply in_map_iff in Hin as (x & Hk & Hx).
  apply in_map_iff. exists x. split; [exact Hk|].
  eapply drop_dup_go_incl. exact Hx.
Qed.

(** ** Rank & Dedup *)

(** C1: for any ordering [s] of the collected matches by descending
    similarity (pandas leaves the order of equal scores open), the two
    passes give a table with no two rows sharing [matched_word] and no two
    sharing [restricted_word], still sorted; each row is the first row of
    [s] with its [matched_word] (so one of highest similarity for that
    text), and the first row with its [restricted_word] among the
    survivors of the first pass; every matched text survives the first
    pass and every restricted text of its survivors survives the second. *)
Theorem rank_dedup_unique (l s : list Match) :
  Permutation l s -> Sorted sim_ge s ->
  let out := dedup_passes s in
  NoDup (map matched_word out) /\ NoDup (map restricted_word out)
  /\ Sorted sim_ge out
  /\ (forall x, In x out ->
        find (fun y => str_eqb (matched_word y) (matched_word x)) s = Some x
        /\ find (fun y => str_eqb (restricted_word y) (restricted_word x))
                (drop_dup matched_word s) = Some x
        /\ (forall y, In y l -> matched_word y = matched_word x ->
                      (similarity y <= similarity x)%Q))
  /\ (forall y, In y s -> exists x, In x (drop_dup matched_word s)
                                    /\ matched_word x = matched_word y)
  /\ (forall y, In y (drop_dup matched_word s) ->
        exists x, In x out /\ restricted_word x = restricted_word y).
Proof.
  intros Hperm Hsort out.
  assert (Hss : StronglySorted sim_ge s)
    by (apply Sorted_StronglySorted; [exact sim_ge_trans|exact Hsort]).
  assert (Hincl : forall x, In x out -> In x (drop_dup matched_word s))
    by (intros x Hx; eapply drop_dup_go_incl; exact Hx).
  split; [|split; [|split; [|split; [|split]]]].
  - apply drop_dup_go_nodup_other. apply drop_dup_go_nodup.
  - apply drop_dup_go_nodup.
  - apply StronglySorted_Sorted. apply drop_dup_go_ssorted, drop_dup_go_ssorted, Hss.
  - intros x Hx. split; [|split].
    + apply (drop_dup_go_first matched_word s []). now apply Hincl.
    + apply (drop_dup_go_first restricted_word _ []). exact Hx.
    + intros y Hy Hk.
      apply (find_ssorted_min sim_ge
               (fun y => str_eqb (matched_word y) (matched_word x)) sim_ge_refl s x Hss).
      * apply (drop_dup_go_first matched_word s []). now apply Hincl.
      * eapply Permutation_in; [exact Hperm|exact Hy].
      * now apply str_eqb_eq.
  - intros y Hy. destruct (drop_dup_go_cover matched_word s [] y Hy) as [[]|H].
    exact H.
  - intros y Hy. destruct (drop_dup_go_cover restricted_word _ [] y Hy) as [[]|H].
    exact H.
Qed.

Lemma rank_dedup_unique_witness :
  let l := [mkMatch (s_ "Apple") (s_ "Apple Inc") (9 # 10);
            mkMatch (s_ "Apple Inc") (s_ "Apple Inc") 1;
            mkMatch (s_ "Apple") (s_ "Apple") 1] in
  Permutation l (sort_by sim_gt l) /\ Sorted sim_ge (sort_by sim_gt l)
  /\ dedup_passes (sort_by sim_gt l)
     = [mkMatch (s_ "Apple Inc") (s_ "Apple Inc") 1;
        mkMatch (s_ "Apple") (s_ "Apple") 1]
  /\ NoDup (map matched_word (dedup_passes (sort_by sim_gt l))).
Proof.
  intros l.
  assert (Hp : Permutation l (sort_by sim_gt l))
    by (apply Permutation_sym, sort_by_perm).
  assert (Hs : Sorted sim_ge (sort_by sim_gt l)).
  { apply sort_by_sorted.
    - intros x y E. now apply q_ltb_false in E.
    - intros x y E. apply q_ltb_lt in E. now apply Qlt_le_weak. }
  split; [exact Hp|]. split; [exact Hs|]. split; [vm_compute; reflexivity|].
  exact (proj1 (rank_dedup_unique l (sort_by sim_gt l) Hp Hs)).
Defined.


(** ** Helper lemmas: raising the threshold filters the rows *)

Section Monotone.

Variables t1 t2 : Q.
Hypothesis Ht1 : (0 <= t1)%Q.
Hypothesis Ht12 : (t1 <= t2)%Q.




End Monotone.

(** ** Helper lemmas: a threshold filter commutes with the ranking sort *)

Section UpwardFilter.

Variable f : Match -> bool.
Hypothesis f_up : forall x y, f x = true -> (similarity x <= similarity y)%Q -> f y = true.







End UpwardFilter.




(** ** Threshold monotonicity *)



(** ** Helper lemmas: the highlight pattern on its own word *)

Lemma option_map_add0 : forall o, option_map (Nat.add 0) o = o.
Proof. intros [n|]; reflexivity. Qed.

Lemma match_at_gaps_skip : forall j p d Y,
  gap_class d = false ->
  match_at (repeat PGap j ++ p) (d :: Y) = match_at p (d :: Y).
Proof.
  induction j as [|j IH]; intros p d Y Hd; [reflexivity|].
  simpl repeat. simpl app. cbn [match_at class_run]. rewrite Hd.
  simpl skipn. rewrite option_map_add0. apply IH. exact Hd.
Qed.

Lemma class_run_spaces : forall j d Y,
  gap_class d = false -> class_run (repeat space j ++ d :: Y) = j.
Proof.
  induction j as [|j IH]; intros d Y Hd; simpl; [now rewrite Hd|].
  now rewrite IH.
Qed.

Lemma word_sub_re_spaces : forall j r,
  word_sub_re (repeat space j ++ r) = repeat PGap j ++ word_sub_re r.
Proof. induction j as [|j IH]; intros r; simpl; [reflexivity|]. now rewrite IH. Qed.

Lemma split_spaces : forall w,
  exists j r, w = repeat space j ++ r /\ (forall r', r <> space :: r').
Proof.
  induction w as [|c w IH].
  - exists 0, []. split; [reflexivity|]. discriminate.
  - destruct (ascii_dec c space) as [->|Hc].
    + destruct IH as (j & r & -> & Hr). exists (S j), r. now split.
    + exists 0, (c :: w). split; [reflexivity|]. intros r' E. injection E. congruence.
Qed.

Lemma gap_class_space : gap_class space = true.
Proof. reflexivity. Qed.

Lemma skipn_repeat_app {A} (a : A) : forall j Y, skipn j (repeat a j ++ Y) = Y.
Proof. induction j as [|j IH]; intros Y; simpl; [reflexivity|apply IH]. Qed.

(** A word with no newline and no bar, not ending in a space, is matched
    by its own pattern exactly, whatever follows it. *)
Lemma match_at_word : forall n w X,
  List.length w <= n ->
  (forall c, In c w -> c = space \/ gap_class c = false) ->
  (forall u, w <> u ++ [space]) ->
  match_at (word_sub_re w) (w ++ X) = Some (List.length w).
Proof.
  induction n as [|n IH]; intros w X Hlen Hchars Hlast.
  - destruct w; [reflexivity|simpl in Hlen; lia].
  - destruct w as [|c w']; [reflexivity|].
    destruct (ascii_dec c space) as [->|Hc].
    + destruct (split_spaces w') as (j & r & -> & Hr).
      destruct r as [|d r].
      * exfalso. apply (Hlast (repeat space j)).
        rewrite app_nil_r. apply repeat_cons.
      * assert (Hd : d <> space) by (intros ->; exact (Hr r eq_refl)).
        assert (Hdc : gap_class d = false).
        { destruct (Hchars d) as [E|E];
            [right; apply in_or_app; right; now left|congruence|exact E]. }
        assert (IHd : match_at (word_sub_re (d :: r)) (d :: r ++ X)
                      = Some (List.length (d :: r))).
        { apply (IH (d :: r) X).
          - simpl in Hlen. rewrite length_app, repeat_length in Hlen. simpl in *. lia.
          - intros c Hc'. apply Hchars. right. apply in_or_app. now right.
          - intros u E. apply (Hlast (space :: repeat space j ++ u)).
            rewrite E. simpl. now rewrite <- app_assoc. }
        change (word_sub_re (space :: repeat space j ++ d :: r))
          with (PGap :: word_sub_re (repeat space j ++ d :: r)).
        rewrite word_sub_re_spaces.
        change ((space :: repeat space j ++ d :: r) ++ X)
          with (space :: (repeat space j ++ d :: r) ++ X).
        rewrite <- app_assoc, <- app_comm_cons.
        cbn [match_at]. cbn [class_run]. rewrite gap_class_space.
        rewrite class_run_spaces by exact Hdc.
        cbn [skipn]. rewrite skipn_repeat_app.
        rewrite match_at_gaps_skip by exact Hdc. rewrite IHd. simpl.
        rewrite length_app, repeat_length. simpl. f_equal; lia.
    + assert (Hce : Ascii.eqb c space = false) by (apply Ascii.eqb_neq; exact Hc).
      replace (word_sub_re (c :: w')) with (PLit c :: word_sub_re w')
        by (unfold word_sub_re; simpl; now rewrite Hce).
      simpl app. cbn [match_at].
      destruct (ascii_dec c c) as [_|]; [|congruence].
      rewrite (IH w' X).
      * reflexivity.
      * simpl in Hlen. lia.
      * intros c' Hc'. apply Hchars. now right.
      * intros u E. apply (Hlast (c :: u)). rewrite E. reflexivity.
Qed.

Lemma word_chars_dec : forall w,
  forallb (fun c => Ascii.eqb c space || negb (gap_class c)) w = true ->
  forall c, In c w -> c = space \/ gap_class c = false.
Proof.
  intros w H c Hc. rewrite forallb_forall in H. specialize (H c Hc).
  apply orb_true_iff in H as [H|H].
  - left. now apply Ascii.eqb_eq.
  - right. now apply negb_true_iff.
Qed.

Lemma word_last_dec : forall w,
  Ascii.eqb (last w space) space = false -> forall u, w <> u ++ [space].
Proof.
  intros w H u ->. rewrite last_last in H. discriminate.
Qed.

(** ** Helper lemmas: [re.subn] scans the whole document *)

Section Subn.

Variable p : list ptok.
Variable repl : str.

Lemma subn_go_found : forall fuel s pre X,
  s = pre ++ X -> match_at p X <> None -> List.length s < fuel ->
  1 <= snd (subn_go fuel p repl s).
Proof.
  induction fuel as [|fuel IH]; intros s pre X Hs HX Hf; [simpl in Hf; lia|].
  cbn [subn_go]. destruct (match_at p s) as [[|n]|] eqn:Em.
  - destruct s as [|c s']; [simpl; lia|].
    destruct (subn_go fuel p repl s'). simpl. lia.
  - destruct (subn_go fuel p repl (skipn (S n) s)). simpl. lia.
  - destruct pre as [|c pre'].
    + simpl in Hs. subst. congruence.
    + destruct s as [|c' s']; [discriminate|].
      injection Hs as <- Hs'.
      specialize (IH s' pre' X Hs' HX ltac:(simpl in Hf; lia)).
      destruct (subn_go fuel p repl s'). simpl in *. exact IH.
Qed.

Lemma subn_go_contains : forall fuel s,
  1 <= snd (subn_go fuel p repl s) ->
  exists pre post, fst (subn_go fuel p repl s) = pre ++ repl ++ post.
Proof.
  induction fuel as [|fuel IH]; intros s H; [simpl in H; lia|].
  cbn [subn_go] in *. destruct (match_at p s) as [[|n]|].
  - destruct s as [|c s'].
    + exists [], []. simpl. now rewrite app_nil_r.
    + destruct (subn_go fuel p repl s') as [o k]. exists [], (c :: o). reflexivity.
  - destruct (subn_go fuel p repl (skipn (S n) s)) as [o k]. exists [], o. reflexivity.
  - destruct s as [|c s']; [simpl in H; lia|].
    specialize (IH s').
    destruct (subn_go fuel p repl s') as [o k]. simpl in *.
    destruct (IH H) as (pre & post & ->). exists (c :: pre), post. reflexivity.
Qed.

End Subn.

Lemma subn_go_seps (w : str) (repl : str) :
  (forall c, In c w -> c = space \/ gap_class c = false) ->
  (forall u, w <> u ++ [space]) ->
  w <> [] -> hd space w <> space ->
  forall seps fuel,
  (forall sep, In sep seps -> sep <> hd space w) ->
  List.length (List.concat (map (fun sep => w ++ [sep]) seps)) < fuel ->
  subn_go fuel (word_sub_re w) repl (List.concat (map (fun sep => w ++ [sep]) seps))
  = (List.concat (map (fun sep => repl ++ [sep]) seps), List.length seps).
Proof.
  intros Hchars Hlast Hne Hc0 seps.
  destruct w as [|c0 rest]; [contradiction|]. simpl hd in *.
  assert (Hpat : word_sub_re (c0 :: rest) = PLit c0 :: word_sub_re rest).
  { unfold word_sub_re. simpl. apply Ascii.eqb_neq in Hc0. now rewrite Hc0. }
  induction seps as [|sep seps IH]; intros fuel Hseps Hf.
  - destruct fuel as [|fuel]; [simpl in Hf; lia|].
    cbn [subn_go List.concat map]. rewrite Hpat. reflexivity.
  - destruct fuel as [|fuel]; [simpl in Hf; lia|].
    set (w := c0 :: rest) in *.
    set (rest_doc := List.concat (map (fun sep => w ++ [sep]) seps)) in *.
    change (List.concat (map (fun sep => w ++ [sep]) (sep :: seps)))
      with ((w ++ [sep]) ++ rest_doc) in *.
    rewrite <- app_assoc in *. change ([sep] ++ rest_doc) with (sep :: rest_doc) in *.
    cbn [subn_go].
    rewrite (match_at_word (List.length w) w (sep :: rest_doc) (le_n _) Hchars Hlast).
    replace (List.length w) with (S (List.length rest)) by reflexivity.
    replace (skipn (S (List.length rest)) (w ++ sep :: rest_doc)) with (sep :: rest_doc)
      by (unfold w; simpl; rewrite skipn_app, Nat.sub_diag, skipn_all; reflexivity).
    assert (Hsep : sep <> c0) by (apply Hseps; now left).
    assert (Hnone : match_at (word_sub_re w) (sep :: rest_doc) = None).
    { rewrite Hpat. cbn [match_at].
      destruct (ascii_dec c0 sep); [congruence|reflexivity]. }
    assert (Hlen : List.length (w ++ sep :: rest_doc) = S (S (List.length rest))
                   + List.length rest_doc)
      by (unfold w; rewrite length_app; simpl; lia).
    destruct fuel as [|fuel]; [lia|].
    cbn [subn_go]. rewrite Hnone.
    rewrite IH; [| intros x Hx; apply Hseps; now right | lia].
    simpl. rewrite <- app_assoc. reflexivity.
Qed.

(** ** Highlighting every occurrence *)

(** C3 (counterexample): [re.subn] is called without [count=1], so both
    occurrences of ["AAA"] in ["AAA x AAA"] are wrapped (2 substitutions). *)
Lemma highlight_wraps_second_occurrence :
  highlight (s_ "AAA x AAA") [mkMatch (s_ "AAA") (s_ "AAA") 1]
  = (hl_repl (s_ "AAA") ++ s_ " x " ++ hl_repl (s_ "AAA"),
     [(mkMatch (s_ "AAA") (s_ "AAA") 1, true, 2)]).
Proof. vm_compute. reflexivity. Qed.

(** C3 (as the code behaves): for a ranked match past the noise filter,
    the Highlighter's [re.subn] wraps every non-overlapping occurrence of
    the pattern, left to right, not only the first.  For a matched text
    with no newline and no bar, not starting or ending with a space, a
    document made of [k >= 1] copies of it, each followed by one separator
    character (which may differ from copy to copy) other than the text's
    first character, gets all [k] copies wrapped, with [k]
    substitutions. *)
Theorem highlight_all_occurrences (m : Match) (seps : list ascii) :
  hl_noisy (matched_word m) = false ->
  (forall c, In c (matched_word m) -> c = space \/ gap_class c = false) ->
  matched_word m <> [] ->
  hd space (matched_word m) <> space ->
  (forall u, matched_word m <> u ++ [space]) ->
  (forall sep, In sep seps -> sep <> hd space (matched_word m)) ->
  seps <> [] ->
  highlight (List.concat (map (fun sep => matched_word m ++ [sep]) seps)) [m]
  = (List.concat (map (fun sep => hl_repl (matched_word m) ++ [sep]) seps),
     [(m, true, List.length seps)]).
Proof.
  intros Hn Hchars Hne Hc0 Hlast Hseps Hk.
  cbn [highlight]. unfold hl_step. rewrite Hn. unfold re_subn.
  rewrite (subn_go_seps (matched_word m) _ Hchars Hlast Hne Hc0 seps) by (exact Hseps || lia).
  destruct seps as [|sep seps]; [contradiction|]. reflexivity.
Qed.

Lemma highlight_all_occurrences_witness :
  highlight (List.concat (map (fun sep => s_ "Apple Inc" ++ [sep]) [","%char; "."%char]))
            [mkMatch (s_ "Apple Inc") (s_ "Apple Inc") 1]
  = (List.concat (map (fun sep => hl_repl (s_ "Apple Inc") ++ [sep]) [","%char; "."%char]),
     [(mkMatch (s_ "Apple Inc") (s_ "Apple Inc") 1, true, 2)]).
Proof.
  apply (highlight_all_occurrences (mkMatch (s_ "Apple Inc") (s_ "Apple Inc") 1)
           [","%char; "."%char]).
  - reflexivity.
  - apply word_chars_dec. reflexivity.
  - discriminate.
  - discriminate.
  - apply word_last_dec. reflexivity.
  - intros sep [<-|[<-|[]]]; discriminate.
  - discriminate.
Defined.

(** ** Running the Highlighter twice *)

(** C4 (counterexample): a second run on the output re-wraps the
    already-wrapped ["Apple"]: one more substitution, and the document
    changes again. *)
Lemma highlight_twice_rewraps :
  let m := mkMatch (s_ "Apple") (s_ "Apple") 1 in
  let d1 := fst (highlight (s_ "Apple") [m]) in
  snd (highlight d1 [m]) = [(m, true, 1)] /\ fst (highlight d1 [m]) <> d1.
Proof. vm_compute. split; [reflexivity|discriminate]. Qed.

(** C4 (as the code behaves): for a one-row table whose matched text has
    no newline or bar and does not end in a space, if the first run wrapped
    it, a second run on the output matches the wrapped text again and makes
    at least one more substitution. *)
Theorem highlight_second_run_rewraps (doc d1 : str) (m : Match) (k1 : nat) :
  (forall c, In c (matched_word m) -> c = space \/ gap_class c = false) ->
  (forall u, matched_word m <> u ++ [space]) ->
  highlight doc [m] = (d1, [(m, true, k1)]) ->
  exists k2, 1 <= k2 /\ snd (highlight d1 [m]) = [(m, true, k2)].
Proof.
  intros Hchars Hlast H. cbn [highlight] in H |- *. unfold hl_step in H |- *.
  destruct (hl_noisy (matched_word m)) eqn:Hn; [injection H; discriminate|].
  set (w := matched_word m) in *. set (p := word_sub_re w) in *.
  unfold re_subn in H |- *.
  destruct (subn_go (S (List.length doc)) p (hl_repl w) doc) as [o1 n1] eqn:E1.
  destruct (n1 =? 0) eqn:Z1; [injection H; discriminate|].
  injection H as <- _.
  assert (Hpos : 1 <= snd (subn_go (S (List.length doc)) p (hl_repl w) doc))
    by (rewrite E1; simpl; apply Nat.eqb_neq in Z1; lia).
  destruct (subn_go_contains p (hl_repl w) _ _ Hpos) as (pre & post & Ho).
  rewrite E1 in Ho. cbn [fst] in Ho. subst o1.
  assert (Hfound : 1 <= snd (subn_go (S (List.length (pre ++ hl_repl w ++ post)))
                               p (hl_repl w) (pre ++ hl_repl w ++ post))).
  { apply (subn_go_found p (hl_repl w) _ _ (pre ++ hl_open) (w ++ hl_close ++ post)).
    - unfold hl_repl. now rewrite <- !app_assoc.
    - unfold p. rewrite (match_at_word (List.length w) w _ (le_n _) Hchars Hlast).
      discriminate.
    - lia. }
  set (d := pre ++ hl_repl w ++ post) in *.
  destruct (subn_go (S (List.length d)) p (hl_repl w) d) as [o2 n2].
  cbn [snd] in Hfound. exists n2. split; [exact Hfound|].
  destruct (n2 =? 0) eqn:Z2; [apply Nat.eqb_eq in Z2; lia|reflexivity].
Qed.

Lemma highlight_second_run_rewraps_witness :
  exists k2, 1 <= k2 /\
    snd (highlight (hl_repl (s_ "Apple")) [mkMatch (s_ "Apple") (s_ "Apple") 1])
    = [(mkMatch (s_ "Apple") (s_ "Apple") 1, true, k2)].
Proof.
  apply (highlight_second_run_rewraps (s_ "Apple") (hl_repl (s_ "Apple"))
           (mkMatch (s_ "Apple") (s_ "Apple") 1) 1).
  - apply word_chars_dec. reflexivity.
  - apply word_last_dec. reflexivity.
  - vm_compute. reflexivity.
Defined.

(** * The rest of main.py: properties *)

(** ** The [re.sub] scanner *)

Lemma in_skipn {A} : forall n (l : list A) x, In x (skipn n l) -> In x l.
Proof.
  intros n l x H. rewrite <- (firstn_skipn n l). apply in_or_app. now right.
Qed.

Section Sub.

Variable m : str -> option nat.
Variable repl : str.

Lemma sub_go_chars : forall f s x,
  In x (sub_go f m repl s) -> In x s \/ In x repl.
Proof.
  induction f as [|f IH]; intros s x Hin; simpl in Hin; [now left|].
  destruct (m s) as [[|n]|].
  - destruct s as [|c s]; [now right|].
    apply in_app_or in Hin as [Hin|[<-|Hin]]; [now right|now left; left|].
    apply IH in Hin as [Hin|Hin]; [left; now right|now right].
  - apply in_app_or in Hin as [Hin|Hin]; [now right|].
    apply IH in Hin as [Hin|Hin]; [|now right].
    left. apply (in_skipn (S n) s). exact Hin.
  - destruct s as [|c s]; [destruct Hin|].
    destruct Hin as [<-|Hin]; [left; now left|].
    apply IH in Hin as [Hin|Hin]; [left; now right|now right].
Qed.

Hypothesis m_len : forall s n, m s = Some n -> 1 <= n <= List.length s.

Lemma sub_go_fuel : forall f1 f2 s, List.length s < f1 -> List.length s < f2 ->
  sub_go f1 m repl s = sub_go f2 m repl s.
Proof.
  induction f1 as [|f1 IH]; intros f2 s H1 H2; [lia|].
  destruct f2 as [|f2]; [lia|]. cbn [sub_go].
  destruct (m s) as [[|n]|] eqn:E.
  - apply m_len in E. lia.
  - f_equal. apply m_len in E. apply IH; rewrite length_skipn; lia.
  - destruct s as [|c s]; [reflexivity|]. f_equal. apply IH; simpl in *; lia.
Qed.

Lemma re_sub_eq : forall s, re_sub m repl s =
  match m s with
  | Some n => repl ++ re_sub m repl (skipn n s)
  | None => match s with [] => [] | c :: s' => c :: re_sub m repl s' end
  end.
Proof.
  intros s. unfold re_sub at 1. cbn [sub_go].
  destruct (m s) as [[|n]|] eqn:E.
  - apply m_len in E. lia.
  - f_equal. unfold re_sub. apply m_len in E. apply sub_go_fuel; rewrite length_skipn; lia.
  - destruct s as [|c s]; reflexivity.
Qed.

End Sub.

Lemma str_len_ind (P : str -> Prop) :
  (forall s, (forall t, List.length t < List.length s -> P t) -> P s) -> forall s, P s.
Proof.
  intros H s. remember (List.length s) as n eqn:En.
  revert s En. induction n as [n IH] using lt_wf_ind. intros s ->.
  apply H. intros t Ht. now apply (IH (List.length t)).
Qed.

Ltac len_induction s IH :=
  pattern s; revert s; apply str_len_ind; intros s IH; cbv beta.

(** ** Tag stripping *)

Lemma index_of_some : forall f s i, index_of f s = Some i ->
  i < List.length s.
Proof.
  intros f. induction s as [|c s IH]; intros i H; simpl in H; [discriminate|].
  destruct (f c); [injection H as <-; simpl; lia|].
  destruct (index_of f s) as [j|]; [|discriminate]. injection H as <-.
  simpl. specialize (IH j eq_refl). lia.
Qed.

Lemma index_of_none : forall f s, index_of f s = None -> forall c, In c s -> f c = false.
Proof.
  intros f. induction s as [|d s IH]; intros H c Hin; [destruct Hin|]. simpl in H.
  destruct (f d) eqn:Ed; [discriminate|].
  destruct (index_of f s) eqn:E; [discriminate|].
  destruct Hin as [<-|Hin]; [exact Ed|]. now apply IH.
Qed.

Lemma tag_match_len : forall s n, tag_match s = Some n -> 1 <= n <= List.length s.
Proof.
  intros [|c r] n H; simpl in H; [discriminate|].
  destruct (Ascii.eqb c "<"%char); [|discriminate].
  destruct (index_of _ r) as [i|] eqn:E; [|discriminate]. simpl in H.
  injection H as <-. apply index_of_some in E. simpl. lia.
Qed.

Lemma ascii_eqb_eq : forall a b, Ascii.eqb a b = true <-> a = b.
Proof. intros a b. apply Ascii.eqb_eq. Qed.

(** Lemmas on the whitespace-run pattern. *)

Lemma class_len_le : forall f s, class_len f s <= List.length s.
Proof.
  intros f. induction s as [|c s IH]; simpl; [lia|]. destruct (f c); simpl; lia.
Qed.

Lemma class_len_prefix : forall f s, forallb f (firstn (class_len f s) s) = true.
Proof.
  intros f. induction s as [|c s IH]; simpl; [reflexivity|].
  destruct (f c) eqn:E; simpl; [now rewrite E, IH|reflexivity].
Qed.

Lemma class_len_stop : forall f s,
  skipn (class_len f s) s = [] \/
  exists c t, skipn (class_len f s) s = c :: t /\ f c = false.
Proof.
  intros f. induction s as [|c s IH]; simpl; [now left|].
  destruct (f c) eqn:E; simpl; [exact IH|right; now exists c, s].
Qed.

Lemma ws2_match_len : forall s n, ws2_match s = Some n -> 1 <= n <= List.length s.
Proof.
  intros [|c1 [|c2 r]] n H; simpl in H; try discriminate.
  destruct (py_isspace c1 && py_isspace c2); [|discriminate].
  injection H as <-. pose proof (class_len_le py_isspace r). simpl. lia.
Qed.

Lemma ws2_match_some : forall s n, ws2_match s = Some n ->
  exists c1 c2 r, s = c1 :: c2 :: r /\ py_isspace c1 = true /\ py_isspace c2 = true
    /\ n = 2 + class_len py_isspace r.
Proof.
  intros [|c1 [|c2 r]] n H; simpl in H; try discriminate.
  destruct (py_isspace c1) eqn:E1, (py_isspace c2) eqn:E2; simpl in H; try discriminate.
  injection H as <-. now exists c1, c2, r.
Qed.

Lemma ws2_match_none : forall c s, ws2_match (c :: s) = None ->
  py_isspace c = false \/ s = [] \/ exists d t, s = d :: t /\ py_isspace d = false.
Proof.
  intros c [|d t] H; [now right; left|]. simpl in H.
  destruct (py_isspace c) eqn:E1, (py_isspace d) eqn:E2; simpl in H; try discriminate;
    try (now left); right; right; now exists d, t.
Qed.

(** Tokenisation ignores how a whitespace run is written. *)
Lemma split_go_ws_cons : forall cur c s, py_isspace c = true ->
  split_go cur (c :: s) = split_go cur (space :: s).
Proof. intros cur c s Hc. simpl. now rewrite Hc. Qed.

Lemma split_go_ws_step : forall cur c s, py_isspace c = true ->
  split_go cur (c :: s) =
  match cur with [] => split_go [] s | _ => rev cur :: split_go [] s end.
Proof. intros cur c s Hc. simpl. now rewrite Hc. Qed.

Lemma split_go_ws_run : forall w cur s, w <> [] -> forallb py_isspace w = true ->
  split_go cur (w ++ s) = split_go cur (space :: s).
Proof.
  induction w as [|c w IH]; intros cur s Hne Hw; [congruence|].
  simpl in Hw. apply andb_true_iff in Hw as [Hc Hw].
  destruct w as [|c' w]; [now apply split_go_ws_cons|].
  change ((c :: c' :: w) ++ s) with (c :: ((c' :: w) ++ s)).
  rewrite (split_go_ws_step cur c _ Hc), (split_go_ws_step cur space _ eq_refl).
  rewrite IH by (congruence || exact Hw).
  rewrite (split_go_ws_step [] space _ eq_refl). reflexivity.
Qed.

Lemma split_go_sub_ws : forall f s cur, List.length s < f ->
  split_go cur (sub_go f ws2_match [space] s) = split_go cur s.
Proof.
  induction f as [|f IH]; intros s cur Hf; [lia|]. cbn [sub_go].
  destruct (ws2_match s) as [[|n]|] eqn:E.
  - apply ws2_match_len in E. lia.
  - destruct (ws2_match_some _ _ E) as (c1 & c2 & r & -> & H1 & H2 & Hn).
    injection Hn as Hn. subst n.
    change (skipn (S (S (class_len py_isspace r))) (c1 :: c2 :: r))
      with (skipn (class_len py_isspace r) r).
    pose proof (class_len_le py_isspace r).
    simpl app.
    replace (c1 :: c2 :: r) with ((c1 :: c2 :: firstn (class_len py_isspace r) r)
                                   ++ skipn (class_len py_isspace r) r)
      by (simpl; now rewrite firstn_skipn).
    rewrite split_go_ws_run by (discriminate || (simpl; rewrite H1, H2;
                                  apply class_len_prefix)).
    rewrite !(split_go_ws_step cur space _ eq_refl).
    rewrite IH by (rewrite length_skipn; simpl in Hf; lia). reflexivity.
  - destruct s as [|c s]; [reflexivity|]. simpl.
    destruct (py_isspace c); rewrite IH by (simpl in Hf; lia); reflexivity.
Qed.

(** [strip()] does not change the tokens. *)
Lemma lstrip_split : forall s, split_go [] (lstrip s) = split_go [] s.
Proof.
  induction s as [|c s IH]; [reflexivity|]. simpl.
  destruct (py_isspace c) eqn:E; [exact IH|]. simpl. now rewrite E.
Qed.

Lemma lstrip_decomp : forall s, exists w, s = w ++ lstrip s /\ forallb py_isspace w = true.
Proof.
  induction s as [|c s IH]; [now exists []|]. simpl.
  destruct (py_isspace c) eqn:E.
  - destruct IH as [w [Hw Hf]]. exists (c :: w). simpl. rewrite E, Hf. now rewrite <- Hw.
  - now exists [].
Qed.

Lemma rstrip_decomp : forall s, exists w, s = rstrip s ++ w /\ forallb py_isspace w = true.
Proof.
  intros s. destruct (lstrip_decomp (rev s)) as [w [Hw Hf]].
  exists (rev w). split.
  - unfold rstrip. rewrite <- rev_app_distr, <- Hw. now rewrite rev_involutive.
  - apply forallb_forall. intros x Hx. apply in_rev in Hx.
    now apply (proj1 (forallb_forall _ _) Hf).
Qed.

Lemma split_go_ws_tail : forall w cur, forallb py_isspace w = true ->
  split_go cur w = split_go cur [].
Proof.
  induction w as [|c w IH]; intros cur Hw; [reflexivity|].
  simpl in Hw. apply andb_true_iff in Hw as [Hc Hw]. simpl. rewrite Hc.
  rewrite IH by exact Hw. destruct cur; reflexivity.
Qed.

Lemma split_go_app_ws : forall a w cur, forallb py_isspace w = true ->
  split_go cur (a ++ w) = split_go cur a.
Proof.
  induction a as [|c a IH]; intros w cur Hw; [now apply split_go_ws_tail|].
  simpl. destruct (py_isspace c); rewrite IH by exact Hw; reflexivity.
Qed.

Lemma py_strip_split : forall s, py_split (py_strip s) = py_split s.
Proof.
  intros s. unfold py_split, py_strip.
  destruct (rstrip_decomp (lstrip s)) as [w [Hw Hf]].
  rewrite <- (lstrip_split s). rewrite Hw at 2. now rewrite split_go_app_ws.
Qed.

Lemma re_sub_ws_nil : re_sub ws2_match [space] [] = [].
Proof. reflexivity. Qed.

Lemma re_sub_ws_head : forall c t, py_isspace c = false ->
  exists o, re_sub ws2_match [space] (c :: t) = c :: o.
Proof.
  intros c t Hc. rewrite (re_sub_eq _ _ ws2_match_len).
  replace (ws2_match (c :: t)) with (@None nat)
    by (destruct t; simpl; [reflexivity|now rewrite Hc]).
  eexists; reflexivity.
Qed.

Lemma re_sub_ws_nonempty : forall s, s <> [] -> re_sub ws2_match [space] s <> [].
Proof.
  intros s Hs. rewrite (re_sub_eq _ _ ws2_match_len).
  destruct (ws2_match s); [discriminate|]. destruct s; [congruence|discriminate].
Qed.

Lemma cons_app_last {A} : forall (x : A) l t c, l <> [] -> x :: l = t ++ [c] ->
  exists t', l = t' ++ [c].
Proof.
  intros x l [|a t] c Hl H; simpl in H; injection H as H1 H2.
  - congruence.
  - now exists t.
Qed.

(** After the substitution no two whitespace characters are adjacent. *)
Lemma re_sub_ws_noadj : forall s a b c1 c2,
  re_sub ws2_match [space] s = a ++ c1 :: c2 :: b ->
  py_isspace c1 = false \/ py_isspace c2 = false.
Proof.
  intros s; len_induction s IH. intros a b c1 c2 H.
  rewrite (re_sub_eq _ _ ws2_match_len) in H.
  destruct (ws2_match s) as [n|] eqn:E.
  - pose proof (ws2_match_len _ _ E) as Hn.
    destruct (ws2_match_some _ _ E) as (x1 & x2 & r & -> & H1 & H2 & ->).
    change (skipn (2 + class_len py_isspace r) (x1 :: x2 :: r))
      with (skipn (class_len py_isspace r) r) in H.
    destruct a as [|a0 a]; simpl in H; injection H as H3 H4.
    + destruct (class_len_stop py_isspace r) as [Hr|(d & t & Hr & Hd)];
        rewrite Hr in H4; [discriminate|].
      destruct (re_sub_ws_head d t Hd) as [o Ho]. rewrite Ho in H4.
      injection H4 as <- _. now right.
    + eapply IH; [|exact H4]. rewrite length_skipn. simpl. lia.
  - destruct s as [|c s']; [destruct a; discriminate|].
    destruct a as [|a0 a]; simpl in H; injection H as H3 H4.
    + subst c1. destruct (ws2_match_none c s' E) as [Hc|[->|(d & t & -> & Hd)]].
      * now left.
      * discriminate.
      * destruct (re_sub_ws_head d t Hd) as [o Ho]. rewrite Ho in H4.
        injection H4 as <- _. now right.
    + eapply IH; [|exact H4]. simpl. lia.
Qed.

(** A text that does not end in whitespace keeps that property. *)
Lemma re_sub_ws_last : forall s,
  (forall t c, s = t ++ [c] -> py_isspace c = false) ->
  forall t c, re_sub ws2_match [space] s = t ++ [c] -> py_isspace c = false.
Proof.
  intros s; len_induction s IH. intros Hs t c H.
  rewrite (re_sub_eq _ _ ws2_match_len) in H.
  destruct (ws2_match s) as [n|] eqn:E.
  - pose proof (ws2_match_len _ _ E) as Hn.
    destruct (ws2_match_some _ _ E) as (x1 & x2 & r & -> & H1 & H2 & ->).
    change (skipn (2 + class_len py_isspace r) (x1 :: x2 :: r))
      with (skipn (class_len py_isspace r) r) in H.
    set (k := class_len py_isspace r) in *.
    assert (Hsplit : x1 :: x2 :: r = (x1 :: x2 :: firstn k r) ++ skipn k r)
      by (simpl; now rewrite firstn_skipn).
    destruct (skipn k r) as [|d u] eqn:Hrest.
    + exfalso. rewrite app_nil_r in Hsplit.
      destruct (exists_last (l := x1 :: x2 :: firstn k r) ltac:(discriminate))
        as (l' & z & Hl).
      assert (Hz : In z (x1 :: x2 :: firstn k r)) by (rewrite Hl; apply in_or_app; right; now left).
      assert (Hzs : py_isspace z = true).
      { destruct Hz as [<-|[<-|Hz]]; [exact H1|exact H2|].
        exact (proj1 (forallb_forall _ _) (class_len_prefix py_isspace r) z Hz). }
      specialize (Hs l' z). rewrite Hsplit, Hl in Hs. rewrite Hs in Hzs; [discriminate|reflexivity].
    + simpl in H.
      destruct (cons_app_last space _ t c (re_sub_ws_nonempty (d :: u) ltac:(discriminate)) H)
        as [t' Ht'].
      refine (IH (d :: u) _ _ t' c Ht').
      * rewrite <- Hrest, length_skipn. simpl. lia.
      * intros u' e Hu. apply (Hs ((x1 :: x2 :: firstn k r) ++ u')).
        rewrite Hsplit, Hu. now rewrite app_assoc.
  - destruct s as [|x s']; [destruct t; discriminate|].
    destruct s' as [|y s''].
    + rewrite re_sub_ws_nil in H. destruct t as [|t0 [|]]; simpl in H; try discriminate.
      injection H as <-. now apply (Hs []).
    + destruct (cons_app_last x _ t c (re_sub_ws_nonempty (y :: s'') ltac:(discriminate)) H)
        as [t' Ht'].
      refine (IH (y :: s'') _ _ t' c Ht'); [simpl; lia|].
      intros u' e Hu. apply (Hs (x :: u')). rewrite Hu. reflexivity.
Qed.

Lemma re_sub_ws_id : forall s,
  (forall a b c1 c2, s = a ++ c1 :: c2 :: b ->
     py_isspace c1 = false \/ py_isspace c2 = false) ->
  re_sub ws2_match [space] s = s.
Proof.
  intros s; len_induction s IH. intros Hs.
  rewrite (re_sub_eq _ _ ws2_match_len).
  destruct (ws2_match s) as [n|] eqn:E.
  - destruct (ws2_match_some _ _ E) as (x1 & x2 & r & -> & H1 & H2 & _).
    destruct (Hs [] r x1 x2 eq_refl) as [H|H]; congruence.
  - destruct s as [|c s']; [reflexivity|]. f_equal. apply IH; [simpl; lia|].
    intros a b c1 c2 Ha. apply (Hs (c :: a) b). now rewrite Ha.
Qed.

Lemma lstrip_head : forall s c t, lstrip s = c :: t -> py_isspace c = false.
Proof.
  induction s as [|x s IH]; intros c t H; simpl in H; [discriminate|].
  destruct (py_isspace x) eqn:E; [eapply IH; exact H|]. injection H as <- _. exact E.
Qed.

Lemma lstrip_app_last : forall u c, py_isspace c = false ->
  lstrip (u ++ [c]) = lstrip u ++ [c].
Proof.
  induction u as [|x u IH]; intros c Hc; simpl; [now rewrite Hc|].
  destruct (py_isspace x); [now apply IH|reflexivity].
Qed.

Lemma py_strip_shape : forall s,
  (forall c t, py_strip s = c :: t -> py_isspace c = false)
  /\ (forall t c, py_strip s = t ++ [c] -> py_isspace c = false).
Proof.
  intros s. unfold py_strip, rstrip. split.
  - intros c t H. destruct (lstrip s) as [|d t'] eqn:E; [discriminate|].
    pose proof (lstrip_head _ _ _ E) as Hd. simpl in H.
    rewrite lstrip_app_last, rev_app_distr in H by exact Hd.
    simpl in H. injection H as <- _. exact Hd.
  - intros t c H. apply (f_equal (@rev ascii)) in H.
    rewrite rev_involutive, rev_app_distr in H. simpl in H.
    now apply lstrip_head in H.
Qed.

Lemma py_strip_id : forall s,
  (forall c t, s = c :: t -> py_isspace c = false) ->
  (forall t c, s = t ++ [c] -> py_isspace c = false) ->
  py_strip s = s.
Proof.
  intros s Hh Hl. unfold py_strip, rstrip.
  assert (Hs : lstrip s = s) by (destruct s as [|c t]; [reflexivity|]; simpl;
                                 now rewrite (Hh c t eq_refl)).
  rewrite Hs. destruct (rev s) as [|c t] eqn:E.
  - simpl. apply (f_equal (@rev ascii)) in E. now rewrite rev_involutive in E.
  - assert (Hc : py_isspace c = false).
    { apply (Hl (rev t)). apply (f_equal (@rev ascii)) in E.
      now rewrite rev_involutive in E. }
    simpl. rewrite Hc. rewrite <- E. apply rev_involutive.
Qed.

(** ** Tag stripping *)

(** X: [re.sub(html_tag_re, ' ', body_HTML)] leaves no [<] followed,
    anywhere later, by a [>]; a body without [<] is left as it is. *)
Theorem strip_tags_no_tag (body_HTML : str) :
  (forall pre mid post,
     strip_tags body_HTML <> pre ++ "<"%char :: mid ++ ">"%char :: post)
  /\ (~ In "<"%char body_HTML -> strip_tags body_HTML = body_HTML).
Proof.
  unfold strip_tags. split.
  - len_induction body_HTML IH. rename body_HTML into s. intros pre mid post H.
    rewrite (re_sub_eq _ _ tag_match_len) in H.
    destruct (tag_match s) as [n|] eqn:E.
    + pose proof (tag_match_len _ _ E).
      destruct pre as [|p pre]; simpl in H; injection H as H1 H2; [discriminate|].
      eapply (IH (skipn n s)); [rewrite length_skipn; lia|exact H2].
    + destruct s as [|c s']; [destruct pre; discriminate|].
      destruct pre as [|p pre]; simpl in H; injection H as H1 H2.
      * subst c. simpl in E.
        destruct (index_of _ s') eqn:Ei; [discriminate|].
        assert (Hin : In ">"%char (re_sub tag_match [space] s'))
          by (rewrite H2; apply in_or_app; right; now left).
        apply sub_go_chars in Hin as [Hin|[Hin|[]]]; [|discriminate].
        pose proof (index_of_none _ _ Ei _ Hin). discriminate.
      * eapply (IH s'); [simpl; lia|exact H2].
  - induction body_HTML as [|c s IH]; intros Hlt; [reflexivity|].
    rewrite (re_sub_eq _ _ tag_match_len). simpl.
    destruct (Ascii.eqb c "<"%char) eqn:Ec.
    + apply ascii_eqb_eq in Ec. subst c. exfalso. apply Hlt. now left.
    + f_equal. apply IH. intros Hin. apply Hlt. now right.
Qed.

(** ** Restricted-word clean-up *)

(** X: the clean-up of line 307 keeps the tokens of each restricted
    phrase ([x.split()]), so its word count, used by [fuzzy_search] to
    sort phrases and pick n-gram sizes, is unchanged. *)
Theorem norm_restricted_tokens (x : str) :
  py_split (norm_restricted x) = py_split x.
Proof.
  unfold norm_restricted, re_sub, py_split.
  rewrite split_go_sub_ws by lia. apply py_strip_split.
Qed.

(** X: a cleaned-up phrase neither starts nor ends with whitespace, holds
    no two adjacent whitespace characters (a single tab stays a tab), and
    cleaning it again changes nothing. *)
Theorem norm_restricted_shape (x : str) :
  let y := norm_restricted x in
  (forall c t, y = c :: t -> py_isspace c = false)
  /\ (forall t c, y = t ++ [c] -> py_isspace c = false)
  /\ (forall a b c1 c2, y = a ++ c1 :: c2 :: b ->
        py_isspace c1 = false \/ py_isspace c2 = false)
  /\ norm_restricted y = y.
Proof.
  intros y. destruct (py_strip_shape x) as [Hh Hl].
  assert (H1 : forall c t, y = c :: t -> py_isspace c = false).
  { intros c t H. unfold y, norm_restricted in H.
    destruct (py_strip x) as [|d u] eqn:E; [discriminate|].
    pose proof (Hh d u eq_refl) as Hd.
    destruct (re_sub_ws_head d u Hd) as [o Ho]. rewrite Ho in H.
    injection H as <- _. exact Hd. }
  assert (H2 : forall t c, y = t ++ [c] -> py_isspace c = false)
    by (intros t c H; exact (re_sub_ws_last (py_strip x) Hl t c H)).
  assert (H3 : forall a b c1 c2, y = a ++ c1 :: c2 :: b ->
                 py_isspace c1 = false \/ py_isspace c2 = false)
    by (intros a b c1 c2 H; exact (re_sub_ws_noadj _ a b c1 c2 H)).
  split; [exact H1|]. split; [exact H2|]. split; [exact H3|].
  unfold norm_restricted at 1. rewrite (py_strip_id y H1 H2).
  now apply re_sub_ws_id.
Qed.

(** ** The character list and [clean_input] *)

Lemma existsb_ascii : forall c seen, existsb (Ascii.eqb c) seen = true <-> In c seen.
Proof.
  intros c seen. rewrite existsb_exists. split.
  - intros (x & Hx & E). apply ascii_eqb_eq in E. now subst.
  - intros H. exists c. split; [exact H|]. now apply ascii_eqb_eq.
Qed.

Lemma uniq_chars_in : forall s seen c,
  In c (uniq_chars seen s) <-> In c s /\ ~ In c seen.
Proof.
  induction s as [|c0 s IH]; intros seen c; simpl; [tauto|].
  destruct (existsb (Ascii.eqb c0) seen) eqn:E.
  - apply existsb_ascii in E. rewrite IH. split; [tauto|].
    intros [[<-|H] Hn]; [contradiction|tauto].
  - assert (Hc0 : ~ In c0 seen) by (intros H; apply existsb_ascii in H; congruence).
    simpl. rewrite IH. simpl. split.
    + intros [<-|[H1 H2]]; [tauto|]. split; [now right|tauto].
    + intros [[<-|H1] H2]; [now left|].
      destruct (ascii_dec c0 c) as [<-|Hne]; [now left|]. right. split; [exact H1|].
      intros [H|H]; [exact (Hne H)|exact (H2 H)].
Qed.

Lemma uniq_chars_nodup : forall s seen, NoDup (uniq_chars seen s).
Proof.
  induction s as [|c0 s IH]; intros seen; simpl; [constructor|].
  destruct (existsb (Ascii.eqb c0) seen); [apply IH|].
  constructor; [|apply IH]. rewrite uniq_chars_in. intros [_ H]. apply H. now left.
Qed.

Lemma nodup_singletons : forall (l : str), NoDup l -> NoDup (map (fun c => [c]) l).
Proof.
  induction l as [|c l IH]; intros H; simpl; [constructor|].
  apply NoDup_cons_iff in H as [Hc H]. constructor; [|now apply IH].
  intros Hin. apply in_map_iff in Hin as (c' & Heq & Hin). injection Heq as ->. contradiction.
Qed.

Lemma all_some_jstr : forall l, all_some (map jstr (map JStr l)) = Some l.
Proof. induction l as [|x l IH]; simpl; [reflexivity|]. now rewrite IH. Qed.

Lemma get_list_of_chars_mem : forall di dt is ts,
  dict_get di (s_ "restricted_words") = Some (JList (map JStr is)) ->
  dict_get dt (s_ "restricted_words") = Some (JList (map JStr ts)) ->
  exists l, get_list_of_chars di dt = Some l
    /\ NoDup l
    /\ (forall x, In x l <-> exists c p, x = [c] /\ In p (is ++ ts) /\ In c p).
Proof.
  intros di dt is ts Hi Ht. unfold get_list_of_chars. rewrite Hi, Ht.
  simpl. rewrite !all_some_jstr.
  eexists. split; [reflexivity|]. split.
  - apply nodup_singletons, uniq_chars_nodup.
  - intros x. rewrite in_map_iff. split.
    + intros (c & <- & Hc). apply uniq_chars_in in Hc as [Hc _].
      rewrite <- concat_app in Hc. apply in_concat in Hc as (p & Hp & Hc).
      now exists c, p.
    + intros (c & p & -> & Hp & Hc). exists c. split; [reflexivity|].
      apply uniq_chars_in. split; [|intros []].
      rewrite <- concat_app. apply in_concat. now exists p.
Qed.

Lemma str_eqb_true : forall a b, str_eqb a b = true -> a = b.
Proof. intros a b. unfold str_eqb. destruct (list_eq_dec ascii_dec a b); congruence. Qed.

Lemma clean_input_mem : forall stop_words url_sub input_string char_list,
  (forall s c, In c (url_sub s) -> In c s) ->
  forall c, In c (clean_input stop_words url_sub input_string char_list) ->
    str_in [c] char_list = true /\ lf_char c = false.
Proof.
  intros sw us s cl Hus c Hc. unfold clean_input in Hc.
  apply Hus in Hc. apply filter_In in Hc as [Hc Hcl]. split; [exact Hcl|].
  apply sub_go_chars in Hc as [Hc|[]].
  apply in_map_iff in Hc as (c' & Heq & _).
  destruct (lf_char c') eqn:E; subst c; [reflexivity|exact E].
Qed.

(** X: [get_list_of_chars] on two dicts whose ['restricted_words'] are
    lists of strings returns distinct one-character strings, exactly the
    characters that occur in some phrase of either list. *)
Theorem get_list_of_chars_spec (json_data_issuer json_data_ticker : jdict)
        (issuer_list ticker_list : list str) :
  dict_get json_data_issuer (s_ "restricted_words") = Some (JList (map JStr issuer_list)) ->
  dict_get json_data_ticker (s_ "restricted_words") = Some (JList (map JStr ticker_list)) ->
  exists l, get_list_of_chars json_data_issuer json_data_ticker = Some l
    /\ NoDup l
    /\ (forall x, In x l <->
          exists c p, x = [c] /\ In p (issuer_list ++ ticker_list) /\ In c p).
Proof. apply get_list_of_chars_mem. Qed.

(** X: every character [clean_input] returns is in [char_list], and none
    is a line feed, a carriage return or a backslash (whatever URL pattern
    is used, since removing its matches only deletes characters). *)
Theorem clean_input_chars (stop_words : list str) (url_sub : str -> str)
        (input_string : str) (char_list : list str) :
  (forall s c, In c (url_sub s) -> In c s) ->
  forall c, In c (clean_input stop_words url_sub input_string char_list) ->
    str_in [c] char_list = true /\ lf_char c = false.
Proof. apply clean_input_mem. Qed.

(** X: with the character list built by [get_list_of_chars] as
    [__main__] does (line 304), [clean_input] keeps only characters that
    occur in some restricted phrase, issuer or ticker. *)
Theorem clean_input_restricted_chars (stop_words : list str) (url_sub : str -> str)
        (input_string : str) (json_data_issuer json_data_ticker : jdict)
        (issuer_list ticker_list char_list : list str) :
  (forall s c, In c (url_sub s) -> In c s) ->
  dict_get json_data_issuer (s_ "restricted_words") = Some (JList (map JStr issuer_list)) ->
  dict_get json_data_ticker (s_ "restricted_words") = Some (JList (map JStr ticker_list)) ->
  get_list_of_chars json_data_ticker json_data_issuer = Some char_list ->
  forall c, In c (clean_input stop_words url_sub input_string char_list) ->
    exists p, (In p issuer_list \/ In p ticker_list) /\ In c p.
Proof.
  intros Hus Hi Ht Hl c Hc.
  destruct (clean_input_mem stop_words url_sub input_string char_list Hus c Hc) as [Hin _].
  destruct (get_list_of_chars_mem _ _ _ _ Ht Hi) as (l & Hl' & _ & Hmem).
  rewrite Hl in Hl'. injection Hl' as <-.
  unfold str_in in Hin. apply existsb_exists in Hin as (x & Hx & Heq).
  apply str_eqb_true in Heq. subst x.
  apply Hmem in Hx as (c' & p & Heq & Hp & Hc'). injection Heq as <-.
  exists p. split; [|exact Hc']. apply in_app_or in Hp. tauto.
Qed.

(** ** Locating the HTML body *)

Lemma skipn_app_length {A} : forall (a b : list A), skipn (List.length a) (a ++ b) = b.
Proof. induction a as [|x a IH]; intros b; [reflexivity|]. apply IH. Qed.

Lemma firstn_app_length {A} : forall (a b : list A), firstn (List.length a) (a ++ b) = a.
Proof. induction a as [|x a IH]; intros b; [reflexivity|]. simpl. now rewrite IH. Qed.

Lemma find_first_seq_some {A} : forall (f : nat -> option A) n start a,
  find_first f (seq start n) = Some a ->
  exists k, start <= k < start + n /\ f k = Some a
    /\ forall k', start <= k' < k -> f k' = None.
Proof.
  intros f. induction n as [|n IH]; intros start a H; simpl in H; [discriminate|].
  destruct (f start) as [b|] eqn:E.
  - injection H as <-. exists start. split; [lia|]. split; [exact E|]. intros k' Hk'. lia.
  - apply IH in H as (k & Hk & Hfk & Hlt). exists k. split; [lia|]. split; [exact Hfk|].
    intros k' Hk'. destruct (Nat.eq_dec k' start) as [->|Hne]; [exact E|]. apply Hlt. lia.
Qed.

Lemma find_first_seq_none {A} : forall (f : nat -> option A) n start,
  find_first f (seq start n) = None -> forall k, start <= k < start + n -> f k = None.
Proof.
  intros f. induction n as [|n IH]; intros start H k Hk; [lia|]. simpl in H.
  destruct (f start) as [b|] eqn:E; [discriminate|].
  destruct (Nat.eq_dec k start) as [->|Hne]; [exact E|]. apply (IH (S start)); [exact H|lia].
Qed.

Lemma ci_prefix_app : forall lit b r, List.length b = List.length lit ->
  ci_prefix lit (b ++ r) = ci_prefix lit b.
Proof.
  induction lit as [|l lit IH]; intros [|c b] r H; simpl in *; try lia; try reflexivity.
  rewrite IH by lia. reflexivity.
Qed.

Lemma ci_prefix_firstn : forall lit s, ci_prefix lit s = true ->
  List.length (firstn (List.length lit) s) = List.length lit
  /\ ci_prefix lit (firstn (List.length lit) s) = true.
Proof.
  induction lit as [|l lit IH]; intros [|c s] H; simpl in *; try discriminate; [tauto|tauto|].
  apply andb_true_iff in H as [H1 H2]. destruct (IH s H2) as [E1 E2].
  rewrite E1, E2, H1. tauto.
Qed.

Lemma group_at_some : forall r2 g, group_at r2 = Some g ->
  exists e post, r2 = g ++ e ++ post
    /\ ci_prefix body_close e = true /\ List.length e = 7
    /\ forall j, j < List.length g -> ci_prefix body_close (skipn j r2) = false.
Proof.
  intros r2 g H. unfold group_at in H.
  apply find_first_seq_some in H as (j & Hj & Hf & Hlt).
  destruct (ci_prefix body_close (skipn j r2)) eqn:Ec; [|discriminate].
  injection Hf as <-.
  destruct (ci_prefix_firstn _ _ Ec) as [El Ep].
  exists (firstn 7 (skipn j r2)), (skipn 7 (skipn j r2)).
  split; [now rewrite !firstn_skipn|]. split; [exact Ep|]. split; [exact El|].
  intros j' Hj'. rewrite length_firstn in Hj'.
  specialize (Hlt j' ltac:(lia)). cbv beta in Hlt.
  destruct (ci_prefix body_close (skipn j' r2)); [discriminate|reflexivity].
Qed.

Lemma group_at_none : forall r2, group_at r2 = None ->
  forall j, ci_prefix body_close (skipn j r2) = false.
Proof.
  intros r2 H j. unfold group_at in H.
  destruct (Nat.le_gt_cases j (List.length r2)) as [Hj|Hj].
  - pose proof (find_first_seq_none _ _ _ H j ltac:(lia)) as Hf. cbv beta in Hf.
    destruct (ci_prefix body_close (skipn j r2)); [discriminate|reflexivity].
  - rewrite skipn_all2 by lia. reflexivity.
Qed.

Lemma group_at_witness : forall g e post,
  ci_prefix body_close e = true -> List.length e = 7 -> group_at (g ++ e ++ post) <> None.
Proof.
  intros g e post He Hl H. pose proof (group_at_none _ H (List.length g)) as Hf.
  rewrite skipn_app_length, ci_prefix_app in Hf by (rewrite Hl; reflexivity). congruence.
Qed.

Lemma body_at_some : forall x g, body_at x = Some g ->
  exists b mid e post, x = b ++ mid ++ ">"%char :: g ++ e ++ post
    /\ ci_prefix body_open b = true /\ List.length b = 5
    /\ ci_prefix body_close e = true /\ List.length e = 7
    /\ ~ In ">"%char mid
    /\ forall j, j < List.length g -> ci_prefix body_close (skipn j (g ++ e ++ post)) = false.
Proof.
  intros x g H. unfold body_at in H.
  destruct (ci_prefix body_open x) eqn:Eo; [|discriminate].
  destruct (ci_prefix_firstn _ _ Eo) as [Bl Bp].
  set (r := skipn 5 x) in H.
  apply find_first_seq_some in H as (k & Hk & Hf & Hlt).
  destruct (nth_error r k) as [c|] eqn:En; [|discriminate].
  destruct (Ascii.eqb c ">"%char) eqn:Ec; [|discriminate]. apply ascii_eqb_eq in Ec. subst c.
  destruct (group_at_some _ _ Hf) as (e & post & Hr2 & Ep & El & Hlazy).
  exists (firstn 5 x), (firstn k r), e, post.
  split.
  { rewrite <- Hr2. rewrite (firstn_skipn_middle k r En). unfold r. now rewrite firstn_skipn. }
  split; [exact Bp|]. split; [exact Bl|]. split; [exact Ep|]. split; [exact El|].
  split; [|now rewrite <- Hr2].
  intros Hin. apply In_nth_error in Hin as (k' & Hk').
  rewrite nth_error_firstn in Hk'. destruct (k' <? k) eqn:Ek'; [|discriminate].
  apply Nat.ltb_lt in Ek'.
  specialize (Hlt k' ltac:(lia)). cbv beta in Hlt. rewrite Hk' in Hlt. simpl Ascii.eqb in Hlt. cbv iota in Hlt.
  destruct (group_at_some _ _ Hf) as (e' & post' & Hr2' & Ep' & El' & _).
  pose proof (group_at_none _ Hlt (List.length g + (k - k'))) as Hc.
  rewrite <- skipn_skipn in Hc.
  replace (skipn (k - k') (skipn (S k') r)) with (skipn (S k) r) in Hc
    by (rewrite skipn_skipn; f_equal; lia).
  rewrite Hr2', skipn_app_length, ci_prefix_app in Hc by (rewrite El'; reflexivity).
  congruence.
Qed.

Lemma body_search_some : forall s g, body_search s = Some g ->
  exists pre x, s = pre ++ x /\ body_at x = Some g.
Proof.
  induction s as [|c s IH]; intros g H; simpl in H.
  - discriminate.
  - destruct (body_at (c :: s)) eqn:E.
    + injection H as <-. now exists [], (c :: s).
    + destruct (IH g H) as (pre & x & -> & Hx). now exists (c :: pre), x.
Qed.

Lemma body_search_cons : forall c s, body_search (c :: s) =
  match body_at (c :: s) with Some g => Some g | None => body_search s end.
Proof. reflexivity. Qed.

Lemma body_search_app_none : forall pre x, body_search (pre ++ x) = None -> body_at x = None.
Proof.
  induction pre as [|c pre IH]; intros x H.
  - simpl app in H. destruct x as [|c x]; [reflexivity|]. rewrite body_search_cons in H.
    destruct (body_at (c :: x)); [discriminate|reflexivity].
  - change ((c :: pre) ++ x) with (c :: (pre ++ x)) in H. rewrite body_search_cons in H.
    destruct (body_at (c :: pre ++ x)); [discriminate|]. now apply IH.
Qed.

Lemma skipn_middle {A} : forall (a b : list A) x, skipn (S (List.length a)) (a ++ x :: b) = b.
Proof. induction a as [|y a IH]; intros b x; [reflexivity|]. apply IH. Qed.

Lemma body_at_witness : forall b mid g e post,
  ci_prefix body_open b = true -> List.length b = 5 ->
  ci_prefix body_close e = true -> List.length e = 7 ->
  body_at (b ++ mid ++ ">"%char :: g ++ e ++ post) <> None.
Proof.
  intros b mid g e post Bp Bl Ep El H. unfold body_at in H.
  rewrite ci_prefix_app, Bp in H by (rewrite Bl; reflexivity).
  rewrite <- Bl, skipn_app_length in H.
  pose proof (find_first_seq_none _ _ _ H (List.length mid)) as Hf.
  rewrite length_app in Hf. simpl List.length in Hf. specialize (Hf ltac:(lia)).
  cbv beta in Hf. rewrite nth_error_app2, Nat.sub_diag in Hf by lia.
  simpl nth_error in Hf. simpl Ascii.eqb in Hf. cbv iota in Hf.
  rewrite skipn_middle in Hf.
  exact (group_at_witness g e post Ep El Hf).
Qed.

(** X: [main] raises ([None.group(1)], an [AttributeError]) exactly when
    the e-mail has no [<body] (any case) followed by a [>] and, later, a
    [</body>] (any case). *)
Theorem main_report_no_body (fmt_pct : Q -> str) (email_body : str)
        (issuer_rows ticker_rows : list Match) :
  main_report fmt_pct email_body issuer_rows ticker_rows = None <->
  ~ exists pre b mid g e post,
      email_body = pre ++ b ++ mid ++ ">"%char :: g ++ e ++ post
      /\ ci_prefix body_open b = true /\ List.length b = 5
      /\ ci_prefix body_close e = true /\ List.length e = 7.
Proof.
  unfold main_report. split.
  - intros H (pre & b & mid & g & e & post & -> & Bp & Bl & Ep & El).
    destruct (body_search _) as [body|] eqn:E.
    + destruct (main_loop _ _ _ _ _ _ _); discriminate.
    + apply body_search_app_none in E. exact (body_at_witness b mid g e post Bp Bl Ep El E).
  - intros Hn. destruct (body_search email_body) as [body|] eqn:E; [|reflexivity].
    exfalso. apply Hn.
    destruct (body_search_some _ _ E) as (pre & x & -> & Hx).
    destruct (body_at_some _ _ Hx) as (b & mid & e & post & -> & Bp & Bl & Ep & El & _).
    now exists pre, b, mid, body, e, post.
Qed.

(** X: the body [main] works on is the text after the first [>] that
    follows a [<body], up to the first [</body>] after it (both lazy): the
    tag part holds no [>] and the body holds no [</body>] (any case). *)
Theorem body_search_lazy (email_body body_HTML : str) :
  body_search email_body = Some body_HTML ->
  exists pre b mid e post,
    email_body = pre ++ b ++ mid ++ ">"%char :: body_HTML ++ e ++ post
    /\ ci_prefix body_open b = true /\ List.length b = 5
    /\ ci_prefix body_close e = true /\ List.length e = 7
    /\ ~ In ">"%char mid
    /\ forall j, j < List.length body_HTML ->
         ci_prefix body_close (skipn j (body_HTML ++ e ++ post)) = false.
Proof.
  intros H. destruct (body_search_some _ _ H) as (pre & x & -> & Hx).
  destruct (body_at_some _ _ Hx) as (b & mid & e & post & -> & R).
  now exists pre, b, mid, e, post.
Qed.

(** ** The report table *)

Lemma subn_go_zero : forall fuel p repl s,
  snd (subn_go fuel p repl s) = 0 -> fst (subn_go fuel p repl s) = s.
Proof.
  induction fuel as [|f IH]; intros p repl s H; [reflexivity|].
  cbn [subn_go] in *. destruct (match_at p s) as [[|n]|].
  - destruct s as [|c s']; [discriminate|].
    destruct (subn_go f p repl s'); discriminate.
  - destruct (subn_go f p repl (skipn (S n) s)); discriminate.
  - destruct s as [|c s']; [reflexivity|].
    specialize (IH p repl s'). destruct (subn_go f p repl s') as [o k].
    simpl in *. now rewrite IH.
Qed.

Lemma hl_step_row : forall doc m doc' m' b n,
  hl_step doc m = (doc', (m', b, n)) ->
  m' = m /\ (b = false -> n = 0 /\ doc' = doc) /\ (b = true -> 1 <= n).
Proof.
  intros doc m doc' m' b n H. unfold hl_step in H.
  destruct (hl_noisy (matched_word m)).
  - injection H as <- <- <- <-. split; [reflexivity|]. split; [tauto|discriminate].
  - unfold re_subn in H.
    pose proof (subn_go_zero (S (List.length doc)) (word_sub_re (matched_word m))
                  (hl_repl (matched_word m)) doc) as Hz.
    destruct (subn_go _ _ _ doc) as [d k]. simpl in Hz.
    destruct (k =? 0) eqn:Ek.
    + apply Nat.eqb_eq in Ek. injection H as <- <- <- <-.
      split; [reflexivity|]. split; [|discriminate]. intros _. split; [reflexivity|]. now apply Hz.
    + apply Nat.eqb_neq in Ek. injection H as <- <- <- <-.
      split; [reflexivity|]. split; [discriminate|]. intros _. lia.
Qed.

Section Loop.

Variable fmt_pct : Q -> str.
Variables n_issuer n_ticker : nat.

Lemma main_loop_step : forall idx r rs body tbl,
  main_loop fmt_pct n_issuer n_ticker idx (r :: rs) body tbl =
  let (b1, row) := hl_step body r in
  main_loop fmt_pct n_issuer n_ticker (S idx) rs b1
    (tbl ++ (if (idx =? 0) && (0 <? n_issuer) then issuer_header
             else if (idx =? n_issuer) && (0 <? n_ticker) then ticker_header else [])
         ++ report_row fmt_pct row).
Proof.
  intros idx r rs body tbl. cbn [main_loop]. unfold hl_step.
  destruct (hl_noisy (matched_word r));
    [|destruct (re_subn (word_sub_re (matched_word r)) (hl_repl (matched_word r)) body)
        as [d k]; destruct (k =? 0)];
    cbn beta iota zeta delta [report_row];
    destruct ((idx =? 0) && (0 <? n_issuer)), ((idx =? n_issuer) && (0 <? n_ticker));
    rewrite ?app_nil_l, ?app_nil_r, ?app_assoc; reflexivity.
Qed.

Lemma highlight_cons : forall body r rs,
  highlight body (r :: rs) =
  let (d1, row) := hl_step body r in
  let (d2, rows) := highlight d1 rs in (d2, row :: rows).
Proof. reflexivity. Qed.

Lemma main_loop_plain : forall rs idx body tbl,
  (forall p, idx <= p < idx + List.length rs ->
     ((p =? 0) && (0 <? n_issuer)) = false /\ ((p =? n_issuer) && (0 <? n_ticker)) = false) ->
  main_loop fmt_pct n_issuer n_ticker idx rs body tbl =
  let (d, rows) := highlight body rs in
  (d, tbl ++ List.concat (map (report_row fmt_pct) rows)).
Proof.
  induction rs as [|r rs IH]; intros idx body tbl H.
  - simpl. now rewrite app_nil_r.
  - rewrite main_loop_step, highlight_cons.
    destruct (H idx ltac:(simpl; lia)) as [E1 E2]. rewrite E1, E2.
    destruct (hl_step body r) as [b1 row].
    rewrite IH by (intros p Hp; apply H; simpl; lia).
    destruct (highlight b1 rs) as [d rows]. simpl. now rewrite app_assoc.
Qed.

Lemma main_loop_app : forall a b idx body tbl,
  main_loop fmt_pct n_issuer n_ticker idx (a ++ b) body tbl =
  let (b1, t1) := main_loop fmt_pct n_issuer n_ticker idx a body tbl in
  main_loop fmt_pct n_issuer n_ticker (idx + List.length a) b b1 t1.
Proof.
  induction a as [|r a IH]; intros b idx body tbl.
  - simpl. now rewrite Nat.add_0_r.
  - simpl app. rewrite !main_loop_step. destruct (hl_step body r) as [b1 row].
    rewrite IH. simpl List.length. now rewrite Nat.add_succ_r.
Qed.

End Loop.

Lemma highlight_app : forall a b body,
  highlight body (a ++ b) =
  let (d1, rows1) := highlight body a in
  let (d2, rows2) := highlight d1 b in (d2, rows1 ++ rows2).
Proof.
  induction a as [|r a IH]; intros b body.
  - simpl. now destruct (highlight body b).
  - simpl app. rewrite !highlight_cons. destruct (hl_step body r) as [d0 row].
    rewrite IH. destruct (highlight d0 a) as [d1 rows1].
    destruct (highlight d1 b) as [d2 rows2]. reflexivity.
Qed.

(** X: a report row marked not highlighted (red) leaves the working
    document as it was; a highlighted row made at least one
    substitution. *)
Theorem hl_step_red_row_unchanged (doc : str) (m : Match) (doc' : str) (m' : Match)
        (highlighted : bool) (subs_made : nat) :
  hl_step doc m = (doc', (m', highlighted, subs_made)) ->
  m' = m
  /\ (highlighted = false -> subs_made = 0 /\ doc' = doc)
  /\ (highlighted = true -> 1 <= subs_made).
Proof. apply hl_step_row. Qed.

(** X: [main]'s loop over the issuer rows then the ticker rows updates
    the body as [highlight] does, and writes the table as: the
    ["Issuer Names"] header if there are issuer rows, their rows, the
    ["Tickers"] header if there are ticker rows, their rows (a red row
    for a row not highlighted). *)
Theorem main_loop_layout (fmt_pct : Q -> str) (body_HTML : str)
        (issuer_rows ticker_rows : list Match) :
  let (d1, rows1) := highlight body_HTML issuer_rows in
  let (d2, rows2) := highlight d1 ticker_rows in
  main_loop fmt_pct (List.length issuer_rows) (List.length ticker_rows) 0
    (issuer_rows ++ ticker_rows) body_HTML result_table0
  = (d2, result_table0
         ++ (match issuer_rows with [] => [] | _ => issuer_header end)
         ++ List.concat (map (report_row fmt_pct) rows1)
         ++ (match ticker_rows with [] => [] | _ => ticker_header end)
         ++ List.concat (map (report_row fmt_pct) rows2)).
Proof.
  set (ni := List.length issuer_rows). set (nt := List.length ticker_rows).
  rewrite main_loop_app.
  assert (Hiss : main_loop fmt_pct ni nt 0 issuer_rows body_HTML result_table0 =
            let (d1, rows1) := highlight body_HTML issuer_rows in
            (d1, result_table0 ++ (match issuer_rows with [] => [] | _ => issuer_header end)
                   ++ List.concat (map (report_row fmt_pct) rows1))).
  { destruct issuer_rows as [|r rs] eqn:Ei.
    - cbn [main_loop highlight map List.concat app]. now rewrite app_nil_r.
    - rewrite main_loop_step, highlight_cons.
      replace ((0 =? 0) && (0 <? ni)) with true by (unfold ni; reflexivity).
      destruct (hl_step body_HTML r) as [b1 row].
      rewrite main_loop_plain.
      + destruct (highlight b1 rs) as [d rows]. cbn [map List.concat]. now rewrite !app_assoc.
      + intros p Hp. unfold ni. simpl List.length in *.
        split; apply andb_false_iff; left; apply Nat.eqb_neq; lia. }
  rewrite Hiss. destruct (highlight body_HTML issuer_rows) as [d1 rows1] eqn:H1.
  destruct ticker_rows as [|t ts] eqn:Et.
  - cbn [main_loop highlight map List.concat app]. rewrite !app_nil_r. now rewrite app_assoc.
  - rewrite main_loop_step, highlight_cons.
    assert (Hni : (ni =? 0) && (0 <? ni) = false)
      by (destruct ni; reflexivity).
    change (0 + List.length issuer_rows) with ni. rewrite Hni, Nat.eqb_refl.
    replace (0 <? nt) with true by (unfold nt; reflexivity). cbn [andb].
    destruct (hl_step d1 t) as [b1 row].
    rewrite main_loop_plain.
    + destruct (highlight b1 ts) as [d rows]. cbn [map List.concat]. now rewrite !app_assoc.
    + intros p Hp. split; apply andb_false_iff; left; apply Nat.eqb_neq; lia.
Qed.

(** ** [str.replace] and the result page *)

Lemma prefixb_iff : forall p s, prefixb p s = true <-> exists t, s = p ++ t.
Proof.
  induction p as [|a p IH]; intros s.
  - split; [intros _; now exists s | reflexivity].
  - destruct s as [|b s]; simpl.
    + split; [discriminate | intros (t & E); discriminate].
    + rewrite andb_true_iff, ascii_eqb_eq, IH. split.
      * intros (-> & t & ->). now exists t.
      * intros (t & E). injection E as -> E. split; [reflexivity|]. now exists t.
Qed.

Lemma last_app_ne {A} : forall (l l' : list A) d, l' <> [] -> last (l ++ l') d = last l' d.
Proof.
  induction l as [|x l IH]; intros l' d H; [reflexivity|].
  rewrite <- (IH l' d H). simpl app.
  destruct (l ++ l') eqn:E; [apply app_eq_nil in E; now destruct E|reflexivity].
Qed.

Lemma last_in {A} : forall (l : list A) d, l <> [] -> In (last l d) l.
Proof.
  induction l as [|x l IH]; intros d H; [contradiction|].
  destruct l as [|y l]; [now left|]. right. apply IH. discriminate.
Qed.

Section Replace.

Variables old new : str.
Hypothesis old_ne : old <> [].

Lemma old_len : 1 <= List.length old.
Proof. destruct old eqn:E; [contradiction|simpl; lia]. Qed.

Lemma old_cons : exists a o, old = a :: o.
Proof. destruct old eqn:E; [contradiction|eauto]. Qed.

Lemma replace_go_fuel : forall f s, List.length s < f ->
  replace_go f old new s = replace_go (S (List.length s)) old new s.
Proof.
  assert (G : forall f1 f2 s, List.length s < f1 -> List.length s < f2 ->
            replace_go f1 old new s = replace_go f2 old new s).
  { induction f1 as [|f1 IH]; intros f2 s H1 H2; [lia|].
    destruct f2 as [|f2]; [lia|]. destruct s as [|c s']; [reflexivity|].
    cbn [replace_go]. destruct (prefixb old (c :: s')) eqn:P.
    - pose proof old_len. rewrite (IH f2); [reflexivity| |];
        rewrite length_skipn; cbn [List.length] in *; lia.
    - rewrite (IH f2); [reflexivity| |]; cbn [List.length] in *; lia. }
  intros f s H. apply G; lia.
Qed.

Lemma py_replace_go : forall s, py_replace old new s = replace_go (S (List.length s)) old new s.
Proof. intros s. unfold py_replace. destruct old eqn:E; [contradiction|reflexivity]. Qed.

Lemma py_replace_nil : py_replace old new [] = [].
Proof. now rewrite py_replace_go. Qed.

Lemma py_replace_cons : forall c s,
  py_replace old new (c :: s) =
  if prefixb old (c :: s)
  then new ++ py_replace old new (skipn (List.length old) (c :: s))
  else c :: py_replace old new s.
Proof.
  intros c s. rewrite (py_replace_go (c :: s)). cbn [replace_go].
  rewrite !py_replace_go. pose proof old_len.
  destruct (prefixb old (c :: s)).
  - f_equal. apply replace_go_fuel. rewrite length_skipn. cbn [List.length] in *. lia.
  - reflexivity.
Qed.

Lemma py_replace_self : py_replace old new old = new.
Proof.
  destruct old_cons as (a & o & Eo).
  rewrite Eo at 2. rewrite py_replace_cons, <- Eo.
  replace (prefixb old old) with true
    by (symmetry; apply prefixb_iff; exists []; now rewrite app_nil_r).
  rewrite skipn_all2 by lia. now rewrite py_replace_nil, app_nil_r.
Qed.

Lemma py_replace_absent : forall s, ~ In (hd space old) s -> py_replace old new s = s.
Proof.
  induction s as [|c s IH]; intros H; [apply py_replace_nil|].
  rewrite py_replace_cons. destruct (prefixb old (c :: s)) eqn:P.
  - apply prefixb_iff in P as (t & E). destruct old_cons as (a & o & Eo).
    rewrite Eo in E, H. injection E as -> _. exfalso. apply H. now left.
  - f_equal. apply IH. intros Hin. apply H. now right.
Qed.

Lemma py_replace_absent_scan : forall s,
  forallb (fun i => negb (prefixb old (skipn i s))) (seq 0 (List.length s)) = true ->
  py_replace old new s = s.
Proof.
  intros s H. rewrite forallb_forall in H.
  assert (G : forall i, i < List.length s -> prefixb old (skipn i s) = false).
  { intros i Hi. apply negb_true_iff, H, in_seq. lia. }
  clear H. induction s as [|c s IH]; [apply py_replace_nil|].
  rewrite py_replace_cons, (G 0 ltac:(simpl; lia) : prefixb old (c :: s) = false). f_equal.
  apply IH. intros i Hi. apply (G (S i)). simpl. lia.
Qed.

(** Splitting the subject between two characters where no occurrence
    of [old] can straddle. *)
Lemma prefixb_app_split : forall c a' b t,
  c :: a' ++ b = old ++ t ->
  (exists l', c :: a' = old ++ l' /\ t = l' ++ b)
  \/ (exists d l'', old = (c :: a') ++ d :: l'' /\ b = d :: l'' ++ t).
Proof.
  intros c a' b t E. change (c :: a' ++ b) with ((c :: a') ++ b) in E.
  apply app_eq_app in E as (l' & [(E1 & E2) | (E1 & E2)]).
  - left. now exists l'.
  - destruct l' as [|d l''].
    + left. exists []. rewrite app_nil_r in E1. simpl in E2.
      rewrite E1, E2, app_nil_r. split; reflexivity.
    + right. now exists d, l''.
Qed.

Lemma prefixb_app_false : forall a b, prefixb old a = true -> prefixb old (a ++ b) = true.
Proof.
  intros a b P. apply prefixb_iff in P as (t & ->). apply prefixb_iff.
  exists (t ++ b). now rewrite app_assoc.
Qed.

Lemma py_replace_app_first : forall a b,
  existsb (Ascii.eqb (hd space b)) old = false ->
  py_replace old new (a ++ b) = py_replace old new a ++ py_replace old new b.
Proof.
  intros a. len_induction a IH. intros b Hb.
  destruct a as [|c a']; [now rewrite py_replace_nil|].
  change ((c :: a') ++ b) with (c :: a' ++ b). rewrite !py_replace_cons.
  destruct (prefixb old (c :: a' ++ b)) eqn:P.
  - apply prefixb_iff in P as (t & E).
    destruct (prefixb_app_split c a' b t E) as [(l' & E1 & E2) | (d & l'' & E1 & E2)].
    + assert (P' : prefixb old (c :: a') = true) by (apply prefixb_iff; now exists l').
      rewrite P'. cbv iota. rewrite E, E1, !skipn_app_length.
      rewrite E2, <- app_assoc. f_equal. apply IH; [|exact Hb].
      apply (f_equal (@List.length ascii)) in E1. rewrite length_app in E1.
      pose proof old_len. simpl in *. lia.
    + exfalso. subst b. simpl in Hb.
      assert (In d old) by (rewrite E1; apply in_or_app; right; now left).
      apply (existsb_ascii d old) in H. congruence.
  - destruct (prefixb old (c :: a')) eqn:P'.
    + apply (prefixb_app_false _ b) in P'. simpl in P'. congruence.
    + cbv iota. rewrite <- app_comm_cons. f_equal. apply IH; [simpl; lia|exact Hb].
Qed.

Lemma py_replace_app_last : forall a b,
  existsb (Ascii.eqb (last a space)) old = false ->
  py_replace old new (a ++ b) = py_replace old new a ++ py_replace old new b.
Proof.
  intros a. len_induction a IH. intros b Ha.
  destruct a as [|c a']; [now rewrite py_replace_nil|].
  change ((c :: a') ++ b) with (c :: a' ++ b). rewrite !py_replace_cons.
  destruct (prefixb old (c :: a' ++ b)) eqn:P.
  - apply prefixb_iff in P as (t & E).
    destruct (prefixb_app_split c a' b t E) as [(l' & E1 & E2) | (d & l'' & E1 & E2)].
    + assert (P' : prefixb old (c :: a') = true) by (apply prefixb_iff; now exists l').
      rewrite P'. cbv iota. rewrite E, E1, !skipn_app_length.
      rewrite E2, <- app_assoc. f_equal. destruct l' as [|x l'].
      * rewrite py_replace_nil. reflexivity.
      * apply IH.
        -- apply (f_equal (@List.length ascii)) in E1. rewrite length_app in E1.
           pose proof old_len. simpl in *. lia.
        -- rewrite E1, last_app_ne in Ha by discriminate. exact Ha.
    + exfalso.
      assert (In (last (c :: a') space) old)
        by (rewrite E1; apply in_or_app; left; apply last_in; discriminate).
      apply existsb_ascii in H. congruence.
  - destruct (prefixb old (c :: a')) eqn:P'.
    + apply (prefixb_app_false _ b) in P'. simpl in P'. congruence.
    + cbv iota. rewrite <- app_comm_cons. f_equal.
      destruct a' as [|y a'']; [now rewrite py_replace_nil|].
      apply IH; [simpl; lia|exact Ha].
Qed.

End Replace.

Lemma result_HTML0_parts :
  result_HTML0 = html_head ++ placeholder_email ++ html_mid ++ placeholder_results ++ html_foot.
Proof. vm_compute. reflexivity. Qed.

Lemma placeholder_email_ne : placeholder_email <> [].
Proof. discriminate. Qed.

Lemma placeholder_results_ne : placeholder_results <> [].
Proof. discriminate. Qed.

Ltac no_char := let Hc := fresh in intro Hc; apply existsb_ascii in Hc; vm_compute in Hc; discriminate.

(** X: the page [main] returns is the fixed template with the email at
    [%EMAIL%] and the closed results table at [%RESULTS%]: the email is
    the original one with the body replaced by the highlighted body, in
    which only a literal [%RESULTS%] is replaced in turn; an email
    without any [%] is embedded verbatim. *)
Theorem main_tail_layout (email_body body_HTML updated_body_HTML result_table : str) :
  main_tail email_body body_HTML updated_body_HTML result_table
  = html_head
    ++ py_replace placeholder_results (result_table ++ s_ "</table>")
         (py_replace body_HTML updated_body_HTML email_body)
    ++ html_mid ++ (result_table ++ s_ "</table>") ++ html_foot
  /\ (~ In "%"%char (py_replace body_HTML updated_body_HTML email_body) ->
      main_tail email_body body_HTML updated_body_HTML result_table
      = html_head ++ py_replace body_HTML updated_body_HTML email_body
        ++ html_mid ++ (result_table ++ s_ "</table>") ++ html_foot).
Proof.
  unfold main_tail. cbv zeta.
  generalize (py_replace body_HTML updated_body_HTML email_body) as e.
  generalize (result_table ++ s_ "</table>") as tb. intros tb e.
  assert (L : py_replace placeholder_results tb
                (py_replace placeholder_email e result_HTML0)
              = html_head ++ py_replace placeholder_results tb e
                ++ html_mid ++ tb ++ html_foot).
  { rewrite result_HTML0_parts.
    rewrite (py_replace_app_last placeholder_email e placeholder_email_ne) by ((vm_compute; discriminate) || reflexivity).
    rewrite (py_replace_absent_scan placeholder_email e placeholder_email_ne html_head) by ((vm_compute; discriminate) || reflexivity).
    rewrite (py_replace_app_first placeholder_email e placeholder_email_ne) by ((vm_compute; discriminate) || reflexivity).
    rewrite py_replace_self by (vm_compute; discriminate).
    rewrite (py_replace_absent_scan placeholder_email e placeholder_email_ne (html_mid ++ placeholder_results ++ html_foot)) by ((vm_compute; discriminate) || reflexivity).
    rewrite (py_replace_app_last placeholder_results tb placeholder_results_ne) by ((vm_compute; discriminate) || reflexivity).
    rewrite (py_replace_absent_scan placeholder_results tb placeholder_results_ne html_head) by ((vm_compute; discriminate) || reflexivity).
    rewrite (py_replace_app_first placeholder_results tb placeholder_results_ne e) by ((vm_compute; discriminate) || reflexivity).
    rewrite (py_replace_app_last placeholder_results tb placeholder_results_ne html_mid) by ((vm_compute; discriminate) || reflexivity).
    rewrite (py_replace_absent_scan placeholder_results tb placeholder_results_ne html_mid) by ((vm_compute; discriminate) || reflexivity).
    rewrite (py_replace_app_first placeholder_results tb placeholder_results_ne placeholder_results)
      by ((vm_compute; discriminate) || reflexivity).
    rewrite py_replace_self by (vm_compute; discriminate).
    rewrite (py_replace_absent_scan placeholder_results tb placeholder_results_ne html_foot) by ((vm_compute; discriminate) || reflexivity).
    reflexivity. }
  split; [exact L|]. intros He. rewrite L.
  rewrite (py_replace_absent placeholder_results tb placeholder_results_ne e) by ((vm_compute; discriminate) || exact He).
  reflexivity.
Qed.

(** ** [fuzzy_search]: where its rows come from, and when it scores nothing *)

Lemma collect_source : forall cl rw t typ n ms,
  collect cl rw t typ n = Some ms ->
  forall row, In row ms ->
  In (restricted_word row) rw /\ 1 <= word_count (restricted_word row) <= n
  /\ exists cand, In cand (get_ngrams cl (word_count (restricted_word row)))
       /\ matched_word row = py_strip (trim_last cand).
Proof.
  intros cl rw t typ. induction n as [|n IH]; intros ms H row Hin; simpl in H.
  - injection H as <-. destruct Hin.
  - destruct (match filter _ rw with [] => Some [] | _ => _ end) as [cur|] eqn:E1;
      [|discriminate].
    destruct (collect cl rw t typ n) as [rest|] eqn:E2; [|discriminate].
    injection H as <-. apply in_app_or in Hin as [Hin|Hin].
    + destruct (filter (fun e => word_count e =? S n) rw) as [|e es] eqn:Ef.
      * injection E1 as <-. destruct Hin.
      * rewrite <- Ef in E1.
        destruct (get_matches_sound _ _ _ _ _ E1 row Hin)
          as (cand & Hc & _ & Hr & Hm & _).
        apply filter_In in Hr as [Hr Hw]. apply Nat.eqb_eq in Hw.
        split; [exact Hr|]. split; [lia|]. exists cand. rewrite Hw. now split.
    + destruct (IH rest eq_refl row Hin) as (H1 & H2 & H3).
      split; [exact H1|]. split; [lia|exact H3].
Qed.

Lemma wc_sorted : forall l, Sorted (fun x y => word_count y <= word_count x) (sort_by wc_gt l).
Proof.
  apply sort_by_sorted.
  - intros x y E. unfold wc_gt in E. apply Nat.ltb_ge in E. exact E.
  - intros x y E. unfold wc_gt in E. apply Nat.ltb_lt in E. lia.
Qed.

Lemma wc_head_max : forall rl w0 ws, sort_by wc_gt rl = w0 :: ws ->
  forall w, In w rl -> word_count w <= word_count w0.
Proof.
  intros rl w0 ws E w Hw.
  assert (Hs := wc_sorted rl). rewrite E in Hs.
  apply Sorted_StronglySorted in Hs; [|intros x y z; lia].
  apply StronglySorted_inv in Hs as [_ Hf].
  assert (Hin : In w (w0 :: ws))
    by (rewrite <- E; eapply Permutation_in; [apply Permutation_sym, sort_by_perm|exact Hw]).
  destruct Hin as [<-|Hin]; [lia|]. rewrite Forall_forall in Hf. exact (Hf w Hin).
Qed.

Lemma get_matches_nil : forall rl t typ, get_matches [] rl t typ = Some [].
Proof. reflexivity. Qed.

Lemma collect_no_window : forall (cl : list str) rw t typ n,
  (forall w, In w rw -> word_count w = 0 \/ List.length cl < word_count w) ->
  collect cl rw t typ n = Some [].
Proof.
  intros cl rw t typ n Hw. induction n as [|n IH]; [reflexivity|].
  cbn [collect]. rewrite IH.
  destruct (filter (fun e => word_count e =? S n) rw) as [|e es] eqn:Ef; [reflexivity|].
  assert (He : In e (filter (fun e => word_count e =? S n) rw)) by (rewrite Ef; now left).
  apply filter_In in He as [He Hc]. apply Nat.eqb_eq in Hc.
  rewrite get_ngrams_eq by lia.
  replace (List.length cl + 1 - S n) with 0 by (destruct (Hw e He); lia).
  reflexivity.
Qed.

Lemma split_go_tokens : forall s cur tok,
  (forall c, In c cur -> py_isspace c = false) ->
  In tok (split_go cur s) ->
  tok <> [] /\ (forall c, In c tok -> py_isspace c = false).
Proof.
  induction s as [|d s IH]; intros cur tok Hcur Hin; simpl in Hin.
  - destruct cur as [|x cur']; [destruct Hin|].
    destruct Hin as [<-|[]]. split.
    + intros E. apply (f_equal (@List.length ascii)) in E.
      rewrite length_rev in E. discriminate.
    + intros c Hc. apply Hcur, in_rev. exact Hc.
  - destruct (py_isspace d) eqn:Ed.
    + destruct cur as [|x cur'].
      * exact (IH [] tok ltac:(intros c []) Hin).
      * destruct Hin as [<-|Hin].
        -- split.
           ++ intros E. apply (f_equal (@List.length ascii)) in E.
              rewrite length_rev in E. discriminate.
           ++ intros c Hc. apply Hcur, in_rev. exact Hc.
        -- exact (IH [] tok ltac:(intros c []) Hin).
    + apply (IH (d :: cur)); [|exact Hin].
      intros c [<-|Hc]; [exact Ed|now apply Hcur].
Qed.

Lemma in_py_strip : forall x c, In c x -> py_isspace c = false -> In c (py_strip x).
Proof.
  intros x c Hx Hc. unfold py_strip.
  destruct (lstrip_decomp x) as (w & Ew & Hw).
  assert (H1 : In c (lstrip x)).
  { rewrite Ew in Hx. apply in_app_or in Hx as [Hx|Hx]; [|exact Hx].
    rewrite forallb_forall in Hw. rewrite (Hw c Hx) in Hc. discriminate. }
  destruct (rstrip_decomp (lstrip x)) as (w' & Ew' & Hw').
  rewrite Ew' in H1. apply in_app_or in H1 as [H1|H1]; [exact H1|].
  rewrite forallb_forall in Hw'. rewrite (Hw' c H1) in Hc. discriminate.
Qed.

Lemma blank_false : forall y c, In c y -> py_isspace c = false ->
  ((List.length y =? 0) || py_isspace_s y) = false.
Proof.
  intros y c Hy Hc. destruct y as [|a y']; [destruct Hy|].
  change ((List.length (a :: y') =? 0) || py_isspace_s (a :: y'))
    with (forallb py_isspace (a :: y')).
  apply not_true_iff_false. intros Hf. rewrite forallb_forall in Hf.
  rewrite (Hf c Hy) in Hc. discriminate.
Qed.

Lemma first_window_nonblank : forall (cl : list str) k,
  (forall tok, In tok cl -> tok <> [] /\ (forall c, In c tok -> py_isspace c = false)) ->
  1 <= k <= List.length cl ->
  exists c0 cs, get_ngrams cl k = c0 :: cs /\ ((List.length c0 =? 0) || py_isspace_s c0) = false.
Proof.
  intros cl k Htok Hk. rewrite get_ngrams_eq by lia.
  replace (List.length cl + 1 - k) with (S (List.length cl - k)) by lia.
  cbn [seq map]. eexists; eexists; split; [reflexivity|].
  destruct cl as [|t0 cl']; [simpl in Hk; lia|].
  destruct k as [|k']; [lia|].
  destruct (Htok t0 (or_introl eq_refl)) as [Hne Hsp].
  destruct t0 as [|c t0']; [contradiction|].
  apply (blank_false _ c); [|apply Hsp; now left].
  apply in_py_strip; [|apply Hsp; now left].
  simpl skipn. simpl firstn.
  destruct (firstn k' cl'); simpl; now left.
Qed.

Lemma ratio_bad : forall a b t, (t < 0 \/ 1 < t)%Q -> ratio a b t = None.
Proof.
  intros a b t H. unfold ratio.
  destruct H as [H|H].
  - replace (q_ltb t 0) with true; [reflexivity|].
    symmetry. unfold q_ltb. apply negb_true_iff, not_true_iff_false.
    intros E. apply Qle_bool_iff in E. exact (Qlt_not_le _ _ H E).
  - replace (q_ltb 1 t) with true; [now rewrite orb_true_r|].
    symmetry. unfold q_ltb. apply negb_true_iff, not_true_iff_false.
    intros E. apply Qle_bool_iff in E. exact (Qlt_not_le _ _ H E).
Qed.

Lemma collect_raises : forall (cl : list str) rw t typ n,
  (t < 0 \/ 1 < t)%Q ->
  (forall tok, In tok cl -> tok <> [] /\ (forall c, In c tok -> py_isspace c = false)) ->
  (exists w, In w rw /\ 1 <= word_count w <= n /\ word_count w <= List.length cl) ->
  collect cl rw t typ n = None.
Proof.
  intros cl rw t typ n Ht Htok. induction n as [|n IH]; intros (w & Hw & Hn & Hl); [lia|].
  cbn [collect].
  assert (Hcur : word_count w = S n ->
            match filter (fun e => word_count e =? S n) rw with
            | [] => Some [] | _ => get_matches (get_ngrams cl (S n))
                                     (filter (fun e => word_count e =? S n) rw) t typ
            end = None).
  { intros Hwn.
    assert (Hf : In w (filter (fun e => word_count e =? S n) rw))
      by (apply filter_In; split; [exact Hw|now apply Nat.eqb_eq]).
    destruct (filter (fun e => word_count e =? S n) rw) as [|e es]; [destruct Hf|].
    destruct (first_window_nonblank cl (S n) Htok ltac:(lia)) as (c0 & cs & -> & Hb).
    cbn [get_matches]. rewrite Hb. cbn [match_phrases].
    now rewrite ratio_bad. }
  destruct (Nat.eq_dec (word_count w) (S n)) as [Hwn|Hwn].
  - now rewrite (Hcur Hwn).
  - destruct (match filter _ rw with [] => Some [] | _ => _ end); [|reflexivity].
    rewrite IH; [reflexivity|]. exists w. split; [exact Hw|]. split; [lia|exact Hl].
Qed.

(** X: every row of a [fuzzy_search] table names a phrase of the
    restricted list with at least one word, and its matched text is an
    n-gram of the document (newlines read as spaces) of exactly that
    phrase's number of words, trimmed and stripped; the table has at
    most one row per phrase, so no more rows than the list has
    entries. *)
Theorem fuzzy_search_row_source (doc : str) (rl : list str) (t : Q) (typ : str)
        (rows : list Match) :
  fst (fuzzy_search doc rl t typ) = Some rows ->
  NoDup (map restricted_word rows) /\ List.length rows <= List.length rl
  /\ (forall row, In row rows ->
        In (restricted_word row) rl /\ 1 <= word_count (restricted_word row)
        /\ exists cand,
             In cand (get_ngrams (py_split (replace_nl doc)) (word_count (restricted_word row)))
             /\ matched_word row = py_strip (trim_last cand)).
Proof.
  intros H. unfold fuzzy_search in H.
  destruct (sort_by wc_gt rl) as [|w0 ws] eqn:E; [discriminate|].
  simpl in H.
  destruct (collect _ (w0 :: ws) t typ (word_count w0)) as [ms|] eqn:Ec; [|discriminate].
  injection H as <-.
  assert (Hsrc : forall row, In row (rank_dedup ms) ->
            In (restricted_word row) rl /\ 1 <= word_count (restricted_word row)
            /\ exists cand,
                 In cand (get_ngrams (py_split (replace_nl doc)) (word_count (restricted_word row)))
                 /\ matched_word row = py_strip (trim_last cand)).
  { intros row Hin. apply rank_dedup_incl in Hin.
    destruct (collect_source _ _ _ _ _ _ Ec row Hin) as (H1 & H2 & H3).
    split; [|split; [lia|exact H3]].
    rewrite <- E in H1. eapply Permutation_in; [apply sort_by_perm|exact H1]. }
  assert (Hnd : NoDup (map restricted_word (rank_dedup ms)))
    by apply drop_dup_go_nodup.
  split; [exact Hnd|]. split; [|exact Hsrc].
  rewrite <- (length_map restricted_word). apply NoDup_incl_length; [exact Hnd|].
  intros x Hx. apply in_map_iff in Hx as (row & <- & Hrow). now apply Hsrc.
Qed.

(** X: when no phrase of a non-empty restricted list has between one
    word and as many words as the document has tokens (for instance a
    blank document), [fuzzy_search] scores nothing and returns an empty
    table, whatever the threshold, an out-of-range one included. *)
Theorem fuzzy_search_no_window (doc : str) (rl : list str) (t : Q) (typ : str) :
  rl <> [] ->
  (forall w, In w rl ->
     word_count w = 0 \/ List.length (py_split (replace_nl doc)) < word_count w) ->
  fst (fuzzy_search doc rl t typ) = Some [].
Proof.
  intros Hne Hw. unfold fuzzy_search.
  destruct (sort_by wc_gt rl) as [|w0 ws] eqn:E.
  - exfalso. exact (Hne (sort_by_nil _ _ E)).
  - simpl. rewrite collect_no_window; [reflexivity|].
    intros w Hin. apply Hw. rewrite <- E in Hin.
    eapply Permutation_in; [apply sort_by_perm|exact Hin].
Qed.

(** X: with a threshold outside [[0, 1]], [fuzzy_search] raises
    ([ValueError] from the scorer) as soon as one phrase of the list has
    between one word and as many words as the document has tokens. *)
Theorem fuzzy_search_bad_threshold (doc : str) (rl : list str) (t : Q) (typ : str) :
  (t < 0 \/ 1 < t)%Q ->
  (exists w, In w rl /\ 1 <= word_count w <= List.length (py_split (replace_nl doc))) ->
  fst (fuzzy_search doc rl t typ) = None.
Proof.
  intros Ht (w & Hw & Hk). unfold fuzzy_search.
  destruct (sort_by wc_gt rl) as [|w0 ws] eqn:E; [reflexivity|].
  simpl. rewrite collect_raises; [reflexivity|exact Ht| |].
  - intros tok Htok. apply (split_go_tokens (replace_nl doc) [] tok); [intros c []|exact Htok].
  - exists w. split; [|split; [split; [lia|]|lia]].
    + rewrite <- E. eapply Permutation_in; [apply Permutation_sym, sort_by_perm|exact Hw].
    + exact (wc_head_max rl w0 ws E w Hw).
Qed.

(** ** Instances of the properties above *)

Lemma strip_tags_no_tag_witness :
  strip_tags (s_ "Apple Inc") = s_ "Apple Inc".
Proof. apply (proj2 (strip_tags_no_tag (s_ "Apple Inc"))). no_char. Defined.

Lemma norm_restricted_shape_witness :
  norm_restricted (norm_restricted (s_ "  Apple   Inc ")) = norm_restricted (s_ "  Apple   Inc ").
Proof. exact (proj2 (proj2 (proj2 (norm_restricted_shape (s_ "  Apple   Inc "))))). Defined.

Lemma get_list_of_chars_spec_witness :
  exists l,
    get_list_of_chars [(s_ "restricted_words", JList [JStr (s_ "Apple Inc")])]
                      [(s_ "restricted_words", JList [JStr (s_ "AAPL")])] = Some l
    /\ NoDup l
    /\ (forall x, In x l <->
          exists c p, x = [c] /\ In p ([s_ "Apple Inc"] ++ [s_ "AAPL"]) /\ In c p).
Proof. apply (get_list_of_chars_spec _ _ [s_ "Apple Inc"] [s_ "AAPL"]); reflexivity. Defined.

Lemma clean_input_chars_witness :
  In "A"%char (clean_input [] (fun x => x) (s_ "Apple Inc. shares, up 5%")
                 (map (fun c => [c]) (s_ "APLple Inc")))
  /\ (str_in ["A"%char] (map (fun c => [c]) (s_ "APLple Inc")) = true
      /\ lf_char "A"%char = false).
Proof.
  assert (Hin : In "A"%char (clean_input [] (fun x => x) (s_ "Apple Inc. shares, up 5%")
                               (map (fun c => [c]) (s_ "APLple Inc"))))
    by (vm_compute; now left).
  split; [exact Hin|].
  apply (clean_input_chars _ _ _ _ (fun s c H => H) _ Hin).
Defined.

Lemma clean_input_restricted_chars_witness :
  In "A"%char (clean_input [] (fun x => x) (s_ "Apple Inc. shares, up 5%")
                 (map (fun c => [c]) (s_ "APLple Inc")))
  /\ exists p, (In p [s_ "Apple Inc"] \/ In p [s_ "AAPL"]) /\ In "A"%char p.
Proof.
  assert (Hin : In "A"%char (clean_input [] (fun x => x) (s_ "Apple Inc. shares, up 5%")
                               (map (fun c => [c]) (s_ "APLple Inc"))))
    by (vm_compute; now left).
  split; [exact Hin|].
  apply (clean_input_restricted_chars _ _ _
           [(s_ "restricted_words", JList [JStr (s_ "Apple Inc")])]
           [(s_ "restricted_words", JList [JStr (s_ "AAPL")])]
           [s_ "Apple Inc"] [s_ "AAPL"] (map (fun c => [c]) (s_ "APLple Inc"))
           (fun s c H => H) eq_refl eq_refl ltac:(vm_compute; reflexivity) _ Hin).
Defined.

Lemma main_report_no_body_witness :
  exists page, main_report (fun _ => s_ "0.00") (s_ "<html><BODY class=a>Hi</Body></html>") [] []
               = Some page.
Proof.
  destruct (main_report (fun _ => s_ "0.00") (s_ "<html><BODY class=a>Hi</Body></html>") [] [])
    as [page|] eqn:E; [now exists page|].
  exfalso. apply (proj1 (main_report_no_body _ _ _ _)) in E. apply E.
  exists (s_ "<html>"), (s_ "<BODY"), (s_ " class=a"), (s_ "Hi"), (s_ "</Body>"), (s_ "</html>").
  split; [reflexivity|]. split; [reflexivity|]. split; [reflexivity|].
  split; reflexivity.
Defined.

Lemma body_search_lazy_witness :
  exists pre b mid e post,
    s_ "<html><body>Hi</body></html>"
      = pre ++ b ++ mid ++ ">"%char :: s_ "Hi" ++ e ++ post
    /\ ci_prefix body_open b = true /\ List.length b = 5
    /\ ci_prefix body_close e = true /\ List.length e = 7
    /\ ~ In ">"%char mid
    /\ forall j, j < List.length (s_ "Hi") ->
         ci_prefix body_close (skipn j (s_ "Hi" ++ e ++ post)) = false.
Proof. apply body_search_lazy. vm_compute. reflexivity. Defined.

Lemma hl_step_red_row_unchanged_witness :
  let m := mkMatch (s_ "Tesla") (s_ "Tesla Inc") (9 # 10) in
  hl_step (s_ "Apple Inc") m = (s_ "Apple Inc", (m, false, 0))
  /\ (m = m /\ (false = false -> 0 = 0 /\ s_ "Apple Inc" = s_ "Apple Inc")
      /\ (false = true -> 1 <= 0)).
Proof.
  split; [vm_compute; reflexivity|].
  apply (hl_step_red_row_unchanged (s_ "Apple Inc")
           (mkMatch (s_ "Tesla") (s_ "Tesla Inc") (9 # 10))).
  vm_compute. reflexivity.
Defined.

Lemma main_tail_layout_witness :
  main_tail (s_ "<body>x</body>") (s_ "x") (s_ "y") result_table0
  = html_head ++ py_replace (s_ "x") (s_ "y") (s_ "<body>x</body>")
    ++ html_mid ++ (result_table0 ++ s_ "</table>") ++ html_foot.
Proof. apply (proj2 (main_tail_layout _ _ _ _)). no_char. Defined.

Lemma fuzzy_search_row_source_witness :
  let rows := [mkMatch (s_ "Apple Inc") (s_ "Apple Inc") (18 # 18)] in
  NoDup (map restricted_word rows) /\ List.length rows <= 1
  /\ (forall row, In row rows ->
        In (restricted_word row) [s_ "Apple Inc"] /\ 1 <= word_count (restricted_word row)
        /\ exists cand,
             In cand (get_ngrams (py_split (replace_nl (s_ "Apple Inc reported earnings")))
                        (word_count (restricted_word row)))
             /\ matched_word row = py_strip (trim_last cand)).
Proof.
  apply (fuzzy_search_row_source (s_ "Apple Inc reported earnings") [s_ "Apple Inc"]
           (85 # 100) (s_ "issuer")).
  vm_compute. reflexivity.
Defined.

Lemma fuzzy_search_no_window_witness :
  fst (fuzzy_search (s_ "Apple") [s_ "Apple Inc"] (2 # 1) (s_ "issuer")) = Some [].
Proof.
  apply fuzzy_search_no_window; [discriminate|].
  intros w [<-|[]]. right. apply Nat.ltb_lt. vm_compute. reflexivity.
Defined.

Lemma fuzzy_search_bad_threshold_witness :
  fst (fuzzy_search (s_ "Apple Inc reported") [s_ "Apple Inc"] (2 # 1) (s_ "issuer")) = None.
Proof.
  apply fuzzy_search_bad_threshold.
  - right. reflexivity.
  - exists (s_ "Apple Inc"). split; [now left|].
    split; apply Nat.leb_le; vm_compute; reflexivity.
Defined.
